(** * RFP evaluation table: weighted aggregation, weight edits, column
      order and row filters

    Shallow embedding of the evaluation-table logic of
    [frontend/app/routes/$.tsx].

    Conventions of the embedding:
    - the aggregation ([calculateOverallScore]) is arithmetic on
      JavaScript [number]s, IEEE-754 binary64 values: they are Rocq's
      primitive floats ([float]), with [NaN], the infinities and the two
      zeros.  Beside it stands the same function on whole numbers, in
      exact arithmetic ([calculateOverallScore_whole]), for the sizes at
      which binary64 sums and products of whole numbers are exact;
    - a whole-valued [number] of moderate size (an index, a percentage,
      the result of [parseInt]) is a [Z]; a [number] that may also be
      [NaN] is an [option];
    - a pointer position or a column width is an exact rational ([Q]);
    - a JavaScript string is a [string]: a sequence of code units, here the
      code units U+0000..U+00FF;
    - [undefined] is [None]; an optional field is an [option]. *)

From Stdlib Require Import PrimFloat FloatOps SpecFloat.
From Stdlib Require Import ZArith QArith Qround Lqa Lia.
From Stdlib Require Import Strings.String Strings.Ascii Numbers.DecimalString.
From Stdlib Require Import Numbers.DecimalPos.
From stdpp Require Import base option list strings.

(** A decimal literal in [float_scope] is the double nearest to it, as in
    JavaScript. *)
Local Set Warnings "-inexact-float".

Local Open Scope string_scope.
Local Open Scope list_scope.
Local Open Scope Z_scope.

(* ===================================================================== *)
(** * Part I. Definitions                                                 *)
(* ===================================================================== *)

(** ** The JavaScript primitives the table relies on *)

Module JS.

(** [Math.round(x)]: the integer nearest to [x], ties towards +infinity. *)
Definition Math_round (x : Q) : Z := Qfloor (x + (1 # 2)).

(** [a + b] and [a * b] on whole numbers that may be [NaN]. *)
Definition add (a b : option Z) : option Z :=
  x ← a; y ← b; Some (x + y).

Definition mul (a b : option Z) : option Z :=
  x ← a; y ← b; Some (x * y).

(** [String(n)], and [n] in [n + '%'], for an integer [n]: its decimal
    digits, after a minus sign when it is negative.  This is the text of
    a [number] for the whole numbers a double holds exactly and prints in
    full, [|n| < 2^53]; from [1e21] on JavaScript prints an exponent. *)
Definition Number_toString (n : Z) : string :=
  DecimalString.NilZero.string_of_int (Z.to_int n).

(** White space skipped by [parseInt]: TAB, LF, VT, FF, CR, SP, NBSP. *)
Definition isWhiteSpace (c : ascii) : bool :=
  let n := N_of_ascii c in
  ((9 <=? n) && (n <=? 13) || (n =? 32) || (n =? 160))%N.

Fixpoint trimStart (s : string) : string :=
  match s with
  | String c s' => if isWhiteSpace c then trimStart s' else s
  | EmptyString => s
  end.

(** The value of a digit or letter as a digit of radix up to 36. *)
Definition digitValue (c : ascii) : option Z :=
  let n := Z.of_N (N_of_ascii c) in
  if (48 <=? n) && (n <=? 57) then Some (n - 48)
  else if (97 <=? n) && (n <=? 122) then Some (n - 87)
  else if (65 <=? n) && (n <=? 90) then Some (n - 55)
  else None.

(** The longest prefix of radix-[R] digits, read as a number; [acc] is
    [None] until a digit has been read. *)
Fixpoint parseDigits (R : Z) (s : string) (acc : option Z) : option Z :=
  match s with
  | String c s' =>
      match digitValue c with
      | Some d =>
          if d <? R then parseDigits R s' (Some (default 0 acc * R + d))
          else acc
      | None => acc
      end
  | EmptyString => acc
  end.

(** [parseInt(string)] with no radix argument; [None] is [NaN]. *)
Definition parseInt (inputString : string) : option Z :=
  let str := trimStart inputString in
  let '(sign, str) :=
    match str with
    | String "-" rest => (-1, rest)
    | String "+" rest => (1, rest)
    | _ => (1, str)
    end in
  let '(R, str) :=
    match str with
    | String "0" (String "x" rest) => (16, rest)
    | String "0" (String "X" rest) => (16, rest)
    | _ => (10, str)
    end in
  mathInt ← parseDigits R str None;
  Some (sign * mathInt).

(** [\d] *)
Definition isDigit (c : ascii) : bool :=
  let n := N_of_ascii c in ((48 <=? n) && (n <=? 57))%N.

(** [/^\d{0,3}$/.test(val)] *)
Definition test_upto3digits (val : string) : bool :=
  forallb isDigit (list_ascii_of_string val)
  && (String.length val <=? 3)%nat.

(** [arr[i]] for an integer [i]: [undefined] outside the array. *)
Definition index {A} (arr : list A) (i : Z) : option A :=
  if i <? 0 then None else arr !! Z.to_nat i.

(** The array after [arr.splice(start, deleteCount, ...items)]: a negative
    [start] counts from the end, and both arguments are clamped to the
    array. *)
Definition splice {A} (start deleteCount : Z) (items arr : list A) : list A :=
  let len := Z.of_nat (length arr) in
  let actualStart :=
    if start <? 0 then Z.max (len + start) 0 else Z.min start len in
  let actualDeleteCount :=
    Z.min (Z.max deleteCount 0) (len - actualStart) in
  take (Z.to_nat actualStart) arr
  ++ items
  ++ drop (Z.to_nat (actualStart + actualDeleteCount)) arr.

(** [String(value)] of a string or [undefined]. *)
Definition String_ (value : option string) : string :=
  default "undefined" value.

(** [toLowerCase] on one code unit: A-Z and the Latin-1 capitals (U+00C0 to
    U+00DE but U+00D7) move up by 32. *)
Definition toLowerCase_unit (c : ascii) : ascii :=
  let n := N_of_ascii c in
  if ((65 <=? n) && (n <=? 90) || (192 <=? n) && (n <=? 214)
      || (216 <=? n) && (n <=? 222))%N
  then ascii_of_N (n + 32) else c.

Fixpoint toLowerCase (s : string) : string :=
  match s with
  | String c s' => String (toLowerCase_unit c) (toLowerCase s')
  | EmptyString => EmptyString
  end.

(** [s.includes(searchString)] *)
Fixpoint includes (s searchString : string) : bool :=
  String.prefix searchString s
  || match s with
     | String _ s' => includes s' searchString
     | EmptyString => false
     end.

(** The truthy values among a string or [undefined]: the non-empty
    strings. *)
Definition truthy (value : option string) : option string :=
  match value with
  | Some str => if String.eqb str "" then None else Some str
  | None => None
  end.

(** [Array.from(new Set(arr))]: the distinct elements in the order of their
    first occurrence. *)
Definition Set_toArray `{EqDecision A} (arr : list A) : list A :=
  foldl (λ set x, if decide (x ∈ set) then set else set ++ [x]) [] arr.

End JS.

(** ** Criteria tree *)

Module SubCriteria.
Record t := mk {
  id : string;
  text : string;
  weight : string;
  scores : list string;
}.
End SubCriteria.

Module TableRow.
Record t := mk {
  id : string;
  title : string;
  weight : string;
  scores : list string;
  sub : option (list SubCriteria.t);
}.
End TableRow.

(** [handleWeightChange(rowId, value)]: the state update
    [prevData => prevData.map(...)] applied to the tree. *)
Definition handleWeightChange (rowId value : string)
    (prevData : list TableRow.t) : list TableRow.t :=
  (λ row,
     if String.eqb (TableRow.id row) rowId then
       TableRow.mk (TableRow.id row) (TableRow.title row) value
                   (TableRow.scores row) (TableRow.sub row)
     else
       match TableRow.sub row with
       | Some sub =>
           TableRow.mk (TableRow.id row) (TableRow.title row)
             (TableRow.weight row) (TableRow.scores row)
             (Some ((λ subRow,
                       if String.eqb (SubCriteria.id subRow) rowId then
                         SubCriteria.mk (SubCriteria.id subRow)
                           (SubCriteria.text subRow) value
                           (SubCriteria.scores subRow)
                       else subRow) <$> sub))
       | None => row
       end) <$> prevData.

(** A state the table can be in: the first two sections of
    [initialTableData] with their first sub-criteria, the scores being
    values that [fillVendorScores] can draw. *)
Definition sub_5_1_1 : SubCriteria.t :=
  SubCriteria.mk "5.1.1"
    "5.1.1. Provider's demonstrated ability to deliver SCaaS in comparable settings will be assessed."
    "" ["70%"; "65%"; "88%"; "91%"; "100%"].

Definition sub_5_1_2 : SubCriteria.t :=
  SubCriteria.mk "5.1.2"
    "5.1.2. Specific experience within the EU or Scandinavian regions will be favorably considered."
    "" ["80%"; "99%"; "61%"; "75%"; "60%"].

Definition sub_5_2_1 : SubCriteria.t :=
  SubCriteria.mk "5.2.1"
    "5.2.1. Completeness and clarity of the proposed service delivery approach will be evaluated."
    "" ["62%"; "78%"; "83%"; "90%"; "94%"].

Definition section_5_1 : TableRow.t :=
  TableRow.mk "5.1" "Experience and Capabilities" "20%"
    ["80%"; "65%"; "72%"; "91%"; "60%"] (Some [sub_5_1_1; sub_5_1_2]).

Definition section_5_2 : TableRow.t :=
  TableRow.mk "5.2" "Service Approach and Methodology" "20%"
    ["77%"; "65%"; "83%"; "68%"; "94%"] (Some [sub_5_2_1]).

Definition sampleData : list TableRow.t := [section_5_1; section_5_2].

(** ** The weight cell

    The cell of row [rowId] keeps the text of its input in [inputValue].
    Each handler below returns the tree after its call of
    [handleWeightChange] and the next [inputValue]. *)

(** [handleInputChange]: the typed text is kept when it is empty or made of
    at most three digits. *)
Definition handleInputChange (val inputValue : string) : string :=
  if String.eqb val "" || JS.test_upto3digits val then val else inputValue.

Definition handleInputBlur (rowId inputValue : string)
    (data : list TableRow.t) : list TableRow.t * string :=
  match JS.parseInt inputValue with
  | None => (handleWeightChange rowId "" data, "")
  | Some num =>
      let num :=
        Z.max 0 (Z.min 100 (JS.Math_round (inject_Z num / 5) * 5)) in
      (handleWeightChange rowId (JS.Number_toString num +:+ "%") data,
       inputValue)
  end.

(** The [onClick] handler of the cell's minus button. *)
Definition onClickMinus (rowId inputValue : string)
    (data : list TableRow.t) : list TableRow.t * string :=
  let current :=
    default 0 (JS.parseInt (if String.eqb inputValue "" then "0"
                            else inputValue)) in
  let next := Z.max 0 (current - 5) in
  (handleWeightChange rowId (JS.Number_toString next +:+ "%") data,
   JS.Number_toString next).

(** The [onClick] handler of the cell's plus button. *)
Definition onClickPlus (rowId inputValue : string)
    (data : list TableRow.t) : list TableRow.t * string :=
  let current :=
    default 0 (JS.parseInt (if String.eqb inputValue "" then "0"
                            else inputValue)) in
  let next := Z.min 100 (current + 5) in
  (handleWeightChange rowId (JS.Number_toString next +:+ "%") data,
   JS.Number_toString next).

(** Every id of the tree: each top-level row's id followed by the ids of
    its sub-criteria. *)
Definition tree_ids (data : list TableRow.t) : list string :=
  row ← data;
  TableRow.id row :: (SubCriteria.id <$> default [] (TableRow.sub row)).

(** ** Column order controller *)

Definition vendorColumnIds : list string :=
  ["LangeTech"; "Best Pacific"; "KMNM"; "Bhilosa"; "Tianhai Lace"].

Definition pinnedColumnIds : list string := ["title"; "weight"].

(** An entry of the column order is a column id, or [undefined] ([None]),
    which [moveColumn] can write into the order. *)
Definition allColumnIds : list (option string) :=
  Some <$> (pinnedColumnIds ++ vendorColumnIds).

(** [moveColumn(dragIndex, hoverIndex)]: the column order handed to
    [setColumnOrder]. *)
Definition moveColumn (columnOrder : list (option string))
    (dragIndex hoverIndex : Z) : list (option string) :=
  let pinned := take (length pinnedColumnIds) columnOrder in
  let vendors := drop (length pinnedColumnIds) columnOrder in
  let dragCol : option string :=
    mjoin (JS.index vendors (dragIndex - Z.of_nat (length pinnedColumnIds))) in
  let vendors :=
    JS.splice (dragIndex - Z.of_nat (length pinnedColumnIds)) 1 [] vendors in
  let vendors :=
    JS.splice (hoverIndex - Z.of_nat (length pinnedColumnIds)) 0 [dragCol]
      vendors in
  pinned ++ vendors.

(** [DraggableTh]: the header of column [id] shown at position [index].
    [isDraggable] is its [canDrag], and [hover] its drop-target handler,
    called with the dragged item's current index; it returns the column
    order and the item's index afterwards. *)
Definition isDraggable (id : string) : bool :=
  bool_decide (id ∈ vendorColumnIds).

Definition hover (id : string) (index : Z) (item_index : Z)
    (columnOrder : list (option string)) : list (option string) * Z :=
  if negb (isDraggable id) || (item_index =? index) then
    (columnOrder, item_index)
  else (moveColumn columnOrder item_index index, index).

(** Moving within a list as the specification words it: remove the element
    at position [i], insert it at position [j]. *)
Definition insert_at {A} (j : nat) (x : A) (l : list A) : list A :=
  take j l ++ x :: drop j l.

Definition move_within {A} (i j : nat) (l : list A) : list A :=
  match l !! i with
  | Some x => insert_at j x (delete i l)
  | None => l
  end.

(** ** Filter engine *)

Module FilterModel.
Record t := mk {
  columnId : string;
  type : string;
  values : list string;
}.
End FilterModel.

Module SelectOption.
Record t := mk {
  label : string;
  value : string;
}.
End SelectOption.

(** [getVendorOptions(idx)] over the tree [data]. *)
Definition getVendorOptions (data : list TableRow.t) (idx : nat)
    : list SelectOption.t :=
  let values :=
    JS.Set_toArray
      (row ← data;
       match JS.truthy (TableRow.scores row !! idx) with
       | Some score => [score]
       | None =>
           match TableRow.sub row with
           | Some sub =>
               omap (λ sub, JS.truthy (SubCriteria.scores sub !! idx)) sub
           | None => []
           end
       end) in
  (λ v, SelectOption.mk v v) <$> values.

(** The scores the specification collects for a vendor: at every row its
    own non-empty score, and the non-empty scores of its children. *)
Definition scores_anywhere (data : list TableRow.t) (idx : nat)
    : list string :=
  row ← data;
  option_list (JS.truthy (TableRow.scores row !! idx))
  ++ omap (λ sub, JS.truthy (SubCriteria.scores sub !! idx))
          (default [] (TableRow.sub row)).

Module ColumnConfig.
Record t := mk {
  id : string;
  accessor : TableRow.t → option string;
  type : string;
  options : option (list SelectOption.t);
}.
End ColumnConfig.

Definition columnsConfig (data : list TableRow.t) : list ColumnConfig.t :=
  [ ColumnConfig.mk "title" (λ row, Some (TableRow.title row)) "text" None;
    ColumnConfig.mk "weight" (λ row, Some (TableRow.weight row)) "text" None;
    ColumnConfig.mk "LangeTech" (λ row, TableRow.scores row !! 0%nat)
      "option" (Some (getVendorOptions data 0));
    ColumnConfig.mk "Best Pacific" (λ row, TableRow.scores row !! 1%nat)
      "option" (Some (getVendorOptions data 1));
    ColumnConfig.mk "KMNM" (λ row, TableRow.scores row !! 2%nat)
      "option" (Some (getVendorOptions data 2));
    ColumnConfig.mk "Bhilosa" (λ row, TableRow.scores row !! 3%nat)
      "option" (Some (getVendorOptions data 3));
    ColumnConfig.mk "Tianhai Lace" (λ row, TableRow.scores row !! 4%nat)
      "option" (Some (getVendorOptions data 4)) ].

(** The callback of [filters.every] in [filteredData]: whether [row] passes
    [filter]. *)
Definition matchesFilter (data : list TableRow.t) (row : TableRow.t)
    (filter : FilterModel.t) : bool :=
  match
    find (λ c, String.eqb (ColumnConfig.id c) (FilterModel.columnId filter))
         (columnsConfig data)
  with
  | None => true
  | Some col =>
      let value := ColumnConfig.accessor col row in
      if String.eqb (FilterModel.type filter) "text" then
        (length (FilterModel.values filter) =? 0)%nat
        || existsb
             (λ v, JS.includes (JS.toLowerCase (JS.String_ value))
                               (JS.toLowerCase v))
             (FilterModel.values filter)
      else true
  end.

(** [filteredData]: the rows of [data] that pass every filter. *)
Definition filteredData (filters : list FilterModel.t)
    (data : list TableRow.t) : list TableRow.t :=
  List.filter (λ row, forallb (matchesFilter data row) filters) data.

(** The accessor declared for a column id: the one of the first column
    with that id. *)
Definition accessor_of (data : list TableRow.t) (columnId : string)
    : option (TableRow.t → option string) :=
  ColumnConfig.accessor
    <$> head (List.filter (λ c, String.eqb (ColumnConfig.id c) columnId)
                          (columnsConfig data)).

(** [v] occurs in [s] when case is ignored. *)
Definition ci_substring (v s : string) : Prop :=
  ∃ pre post, JS.toLowerCase s = pre +:+ JS.toLowerCase v +:+ post.

(** A row satisfies a predicate, as the specification words it. A
    predicate on a column that has no accessor, or of a type other than
    text, holds of every row. *)
Inductive satisfies (data : list TableRow.t) (row : TableRow.t)
    (filter : FilterModel.t) : Prop :=
| satisfies_no_column :
    accessor_of data (FilterModel.columnId filter) = None →
    satisfies data row filter
| satisfies_not_text :
    FilterModel.type filter ≠ "text" →
    satisfies data row filter
| satisfies_empty :
    FilterModel.values filter = [] →
    satisfies data row filter
| satisfies_any acc v :
    FilterModel.type filter = "text" →
    accessor_of data (FilterModel.columnId filter) = Some acc →
    v ∈ FilterModel.values filter →
    ci_substring v (JS.String_ (acc row)) →
    satisfies data row filter.

(** ** Aggregation engine *)

(** *** Doubles *)

Module Binary64.

(** The double that holds the whole number [n], for [|n| < 2^63]; exact
    while [|n| <= 2^53]. *)
Definition of_Z (n : Z) : float :=
  if 0 <=? n then PrimFloat.of_uint63 (Uint63Axioms.of_Z n)
  else PrimFloat.opp (PrimFloat.of_uint63 (Uint63Axioms.of_Z (- n))).

(** The double nearest to [n / d], for whole numbers [n] and [d] that
    doubles hold exactly: one correctly rounded division. *)
Definition ratio (n d : Z) : float := PrimFloat.div (of_Z n) (of_Z d).

(** The double nearest to a rational, [NaN] for [None]. *)
Definition nearest (r : option Q) : float :=
  match r with
  | Some q => ratio (Qnum q) (Z.pos (Qden q))
  | None => PrimFloat.nan
  end.

(** The exact value of a finite double. *)
Definition to_Q (x : float) : option Q :=
  match Prim2SF x with
  | S754_zero _ => Some 0%Q
  | S754_finite s m e =>
      let n := if s then Z.neg m else Z.pos m in
      Some (if 0 <=? e then inject_Z (n * 2 ^ e)
            else (n # Z.to_pos (2 ^ (- e)))%Q)
  | _ => None
  end.

(** [Math.round(x)]: the whole number nearest to [x], ties towards
    +infinity; [x] itself when [x] is [NaN], infinite, a zero or already
    whole; [-0] for [x] in [[-0.5, 0)]. *)
Definition Math_round (x : float) : float :=
  match Prim2SF x with
  | S754_finite s m e =>
      if 0 <=? e then x
      else
        let den := 2 ^ (- e) in
        let num := if s then Z.neg m else Z.pos m in
        let k := (2 * num + den) / (2 * den) in
        if k =? 0 then (if s then PrimFloat.neg_zero else PrimFloat.zero)
        else of_Z k
  | _ => x
  end.

End Binary64.

(** [function calculateOverallScore(sectionScores, weights)].  [weights[i]]
    is [undefined] past the end of [weights], and a product with
    [undefined] is [NaN], which the sum, the division and [Math.round]
    propagate. *)
Definition calculateOverallScore (sectionScores weights : list float) : float :=
  let totalWeight := foldl (λ sum w, sum + w)%float 0%float weights in
  if (totalWeight =? 0)%float then 0%float
  else
    let raw :=
      (foldl (λ sum x, sum + x) 0
         (imap (λ i score, score * default PrimFloat.nan (weights !! i))
            sectionScores)
       / totalWeight)%float in
    (Binary64.Math_round (raw * 10) / 10)%float.

(** *** Whole numbers

    [calculateOverallScore] on whole numbers, in exact arithmetic.  Sums
    and products of whole numbers are exact in binary64 while they stay
    below 2^53, so on such vectors the total weight and the sum of the
    products are the same whole numbers in both functions.  The result
    here is the decimal [k / 10]; there it is the double nearest to
    it. *)
Definition calculateOverallScore_whole (sectionScores weights : list Z)
    : option Q :=
  let totalWeight := foldl Z.add 0 weights in
  if totalWeight =? 0 then Some 0%Q
  else
    let products :=
      imap (λ i score, JS.mul (Some score) (weights !! i)) sectionScores in
    raw_sum ← foldl JS.add (Some 0) products;
    let raw := (inject_Z raw_sum / inject_Z totalWeight)%Q in
    Some (inject_Z (JS.Math_round (raw * 10)) / 10)%Q.



(** The two functions give the same number on a pair of whole-number
    vectors. *)
Definition same_on (scores weights : list Z) : bool :=
  PrimFloat.Leibniz.eqb
    (calculateOverallScore (Binary64.of_Z <$> scores)
       (Binary64.of_Z <$> weights))
    (Binary64.nearest (calculateOverallScore_whole scores weights)).

(** Two sections, each with a score that is a multiple of 10 up to 100
    and a weight that is a multiple of 5 up to 100. *)
Definition two_section_grid : list (list Z * list Z) :=
  let scores := (λ n : nat, 10 * Z.of_nat n) <$> seq 0 11 in
  let weights := (λ n : nat, 5 * Z.of_nat n) <$> seq 0 21 in
  s1 ← scores; s2 ← scores; w1 ← weights; w2 ← weights;
  [([s1; s2], [w1; w2])].

(** The weighted mean as the specification words it: the sum of
    [score[i] * weight[i]] divided by the total weight. *)
Definition sumQ (l : list Q) : Q := foldr Qplus 0%Q l.



(** [v] is a normalised percentage for the integer [p]: ["<n>%"] with [n]
    a multiple of 5 in [[0,100]], the multiple of 5 nearest to [p] clamped
    to [[0,100]]. *)
Definition normalised_percent (p : Z) (v : string) : Prop :=
  ∃ n : Z,
    v = JS.Number_toString n +:+ "%"
    ∧ 0 <= n <= 100 ∧ n mod 5 = 0
    ∧ Z.abs (n - Z.max 0 (Z.min 100 p)) <= 2.

(** [v] is ["<n>%"] with [n] a multiple of 5 in [[0,100]]. *)
Definition percent_step5 (v : string) : Prop :=
  ∃ n : Z, v = JS.Number_toString n +:+ "%" ∧ 0 <= n <= 100 ∧ n mod 5 = 0.

(** ** Further parts of the table *)

(** The callback of [prevData.map] in [handleWeightChange], on one row. *)
Definition updateRow (rowId value : string) (row : TableRow.t) : TableRow.t :=
  if String.eqb (TableRow.id row) rowId then
    TableRow.mk (TableRow.id row) (TableRow.title row) value
                (TableRow.scores row) (TableRow.sub row)
  else
    match TableRow.sub row with
    | Some sub =>
        TableRow.mk (TableRow.id row) (TableRow.title row)
          (TableRow.weight row) (TableRow.scores row)
          (Some ((λ subRow,
                    if String.eqb (SubCriteria.id subRow) rowId then
                      SubCriteria.mk (SubCriteria.id subRow)
                        (SubCriteria.text subRow) value
                        (SubCriteria.scores subRow)
                    else subRow) <$> sub))
    | None => row
    end.

(** [data.find(row => row.id === sectionId)], the lookup the footer makes
    for each section. *)
Definition findSection (data : list TableRow.t) (sectionId : string)
    : option TableRow.t :=
  find (λ row, String.eqb (TableRow.id row) sectionId) data.

(** A tree with every weight blanked: what is left is the ids, titles,
    texts, scores and the shape. *)
Definition without_weights (data : list TableRow.t) : list TableRow.t :=
  (λ row,
     TableRow.mk (TableRow.id row) (TableRow.title row) ""
       (TableRow.scores row)
       ((λ subs : list SubCriteria.t,
           (λ subRow,
              SubCriteria.mk (SubCriteria.id subRow) (SubCriteria.text subRow)
                "" (SubCriteria.scores subRow)) <$> subs)
          <$> TableRow.sub row)) <$> data.

(** The text the weight cell shows for a stored weight: the initial state
    of [inputValue] and what the effect on [getValue()] sets it to. *)
Definition syncInputValue (weight : string) : string :=
  match JS.parseInt (if String.eqb weight "" then "" else weight) with
  | None => ""
  | Some val => JS.Number_toString val
  end.

(** A string that does not start with a digit or a letter. *)
Definition no_digit_ahead (rest : string) : Prop :=
  match rest with
  | String c _ => JS.digitValue c = None
  | EmptyString => True
  end.

(** A column order is in shape when the pinned columns hold its first
    positions, in their order, and the rest is the vendor columns in some
    order. *)
Definition order_in_shape (columnOrder : list (option string)) : Prop :=
  take (length pinnedColumnIds) columnOrder = Some <$> pinnedColumnIds
  ∧ drop (length pinnedColumnIds) columnOrder ≡ₚ Some <$> vendorColumnIds.

(** [toggleRow(id)] of the bid-details table: the update of
    [scoreDetailsExpandedRows]. *)
Definition toggleRow (id : string) (prev : list string) : list string :=
  if bool_decide (id ∈ prev) then
    List.filter (λ x, negb (String.eqb x id)) prev
  else prev ++ [id].

(** ** Building the table *)

(** [getRandomPercent()], given the value [r] that [Math.random()]
    returns.  The product [r * 41] is taken exactly; the source rounds it
    to a double before [Math.floor], which can raise the percentage drawn
    by one and keeps it within 60..100. *)
Definition getRandomPercent (r : Q) : string :=
  JS.Number_toString (Qfloor (r * 41) + 60) +:+ "%".

(** [scores.map(val => val === '-' ? getRandomPercent() : val)]. The
    successive results of [Math.random()] are [random 0], [random 1], ...;
    [n] is the number of results already used, and the count after the
    call is returned with the new scores. *)
Fixpoint fillScores (random : nat → Q) (n : nat) (scores : list string)
    : list string * nat :=
  match scores with
  | [] => ([], n)
  | val :: rest =>
      if String.eqb val "-" then
        let '(rest', n') := fillScores random (S n) rest in
        (getRandomPercent (random n) :: rest', n')
      else
        let '(rest', n') := fillScores random n rest in
        (val :: rest', n')
  end.

(** [row.sub.map(subRow => ({...subRow, scores: ...}))], with the same
    counting. *)
Fixpoint fillSubScores (random : nat → Q) (n : nat)
    (sub : list SubCriteria.t) : list SubCriteria.t * nat :=
  match sub with
  | [] => ([], n)
  | subRow :: rest =>
      let '(scores', n1) := fillScores random n (SubCriteria.scores subRow) in
      let '(rest', n2) := fillSubScores random n1 rest in
      (SubCriteria.mk (SubCriteria.id subRow) (SubCriteria.text subRow)
         (SubCriteria.weight subRow) scores' :: rest', n2)
  end.

(** [fillVendorScores(row)] *)
Definition fillVendorScores (random : nat → Q) (n : nat) (row : TableRow.t)
    : TableRow.t * nat :=
  let '(scores', n1) := fillScores random n (TableRow.scores row) in
  match TableRow.sub row with
  | Some sub =>
      let '(sub', n2) := fillSubScores random n1 sub in
      (TableRow.mk (TableRow.id row) (TableRow.title row)
         (TableRow.weight row) scores' (Some sub'), n2)
  | None =>
      (TableRow.mk (TableRow.id row) (TableRow.title row)
         (TableRow.weight row) scores' None, n1)
  end.

(** [rows.map(fillVendorScores)], as in [initialTableData]. *)
Fixpoint fillTable (random : nat → Q) (n : nat) (rows : list TableRow.t)
    : list TableRow.t * nat :=
  match rows with
  | [] => ([], n)
  | row :: rest =>
      let '(row', n1) := fillVendorScores random n row in
      let '(rest', n2) := fillTable random n1 rest in
      (row' :: rest', n2)
  end.

(** Every score of a tree, row by row, each row's own scores before its
    children's. *)
Definition all_scores (data : list TableRow.t) : list string :=
  row ← data;
  TableRow.scores row
  ++ (default [] (TableRow.sub row) ≫= SubCriteria.scores).

(** A score a fill can produce from the placeholder: ["<n>%"] with [n]
    between 60 and 100. *)
Definition drawn_percent (v : string) : Prop :=
  ∃ n : Z, 60 <= n <= 100 ∧ v = JS.Number_toString n +:+ "%".

(** [getSubRows(row)]: the children of a row, as rows of the table. *)
Definition getSubRows (row : TableRow.t) : list TableRow.t :=
  match TableRow.sub row with
  | Some sub =>
      (λ sub, TableRow.mk (SubCriteria.id sub) (SubCriteria.text sub)
                (SubCriteria.weight sub) (SubCriteria.scores sub) None)
        <$> sub
  | None => []
  end.

(** How a fill relates a score to the score it puts in its place: the
    placeholder becomes a drawn percentage, any other score is kept. *)
Definition filled (old new : string) : Prop :=
  (old = "-" ∧ drawn_percent new) ∨ (old ≠ "-" ∧ new = old).

(** The number of placeholders among some scores. *)
Definition placeholders (scores : list string) : nat :=
  length (List.filter (λ val, String.eqb val "-") scores).

(** The first section of the table as written in [initialTableData],
    before the fill, with its first two sub-criteria. *)
Definition unfilledData : list TableRow.t :=
  [ TableRow.mk "5.1" "Experience and Capabilities" "20%"
      ["-"; "-"; "-"; "-"; "-"]
      (Some
         [ SubCriteria.mk "5.1.1" (SubCriteria.text sub_5_1_1) ""
             ["-"; "-"; "-"; "-"; "-"];
           SubCriteria.mk "5.1.2" (SubCriteria.text sub_5_1_2) ""
             ["-"; "-"; "-"; "-"; "-"] ]) ].

(** ** Column widths of the bid-details table *)

Module BidDetailsColKey.
Inductive t := criteria | score | justification | reference.
End BidDetailsColKey.

Module BidDetailsColWidths.
Record t := mk {
  criteria : Q;
  score : Q;
  justification : Q;
  reference : Q;
}.

(** [widths[colKey]] *)
Definition get (widths : t) (colKey : BidDetailsColKey.t) : Q :=
  match colKey with
  | BidDetailsColKey.criteria => criteria widths
  | BidDetailsColKey.score => score widths
  | BidDetailsColKey.justification => justification widths
  | BidDetailsColKey.reference => reference widths
  end.

(** [{...widths, [colKey]: width}] *)
Definition set (colKey : BidDetailsColKey.t) (width : Q) (widths : t) : t :=
  match colKey with
  | BidDetailsColKey.criteria =>
      mk width (score widths) (justification widths) (reference widths)
  | BidDetailsColKey.score =>
      mk (criteria widths) width (justification widths) (reference widths)
  | BidDetailsColKey.justification =>
      mk (criteria widths) (score widths) width (reference widths)
  | BidDetailsColKey.reference =>
      mk (criteria widths) (score widths) (justification widths) width
  end.
End BidDetailsColWidths.

Definition BID_DETAILS_DEFAULT_WIDTHS : BidDetailsColWidths.t :=
  BidDetailsColWidths.mk 200 100 300 120.

(** [Math.max(a, b)] *)
Definition Math_max (a b : Q) : Q := if Qle_bool a b then b else a.

(** The state the resize handlers work on: the widths, and the three refs
    [resizingCol], [startX] and [startWidth]. *)
Module ResizeState.
Record t := mk {
  bidDetailsColWidths : BidDetailsColWidths.t;
  resizingCol : option BidDetailsColKey.t;
  startX : Q;
  startWidth : Q;
}.
End ResizeState.

(** [handleBidDetailsResizeStart(e, colKey)], with [clientX] for
    [e.clientX]. *)
Definition handleBidDetailsResizeStart (clientX : Q)
    (colKey : BidDetailsColKey.t) (st : ResizeState.t) : ResizeState.t :=
  ResizeState.mk (ResizeState.bidDetailsColWidths st) (Some colKey) clientX
    (BidDetailsColWidths.get (ResizeState.bidDetailsColWidths st) colKey).

(** [handleBidDetailsResizeMove(e)], with the state update applied at
    the event, as when React runs the updater before the next event
    arrives. *)
Definition handleBidDetailsResizeMove (clientX : Q) (st : ResizeState.t)
    : ResizeState.t :=
  match ResizeState.resizingCol st with
  | None => st
  | Some colKey =>
      let dx := (clientX - ResizeState.startX st)%Q in
      ResizeState.mk
        (BidDetailsColWidths.set colKey
           (Math_max 60 (ResizeState.startWidth st + dx))
           (ResizeState.bidDetailsColWidths st))
        (ResizeState.resizingCol st) (ResizeState.startX st)
        (ResizeState.startWidth st)
  end.

(** [handleBidDetailsResizeEnd()] *)
Definition handleBidDetailsResizeEnd (st : ResizeState.t) : ResizeState.t :=
  ResizeState.mk (ResizeState.bidDetailsColWidths st) None
    (ResizeState.startX st) (ResizeState.startWidth st).

(** The mouse events of a resize session, and the handler each runs. *)
Inductive ResizeEvent :=
| MouseDown (clientX : Q) (colKey : BidDetailsColKey.t)
| MouseMove (clientX : Q)
| MouseUp.

Definition resizeStep (st : ResizeState.t) (e : ResizeEvent) : ResizeState.t :=
  match e with
  | MouseDown clientX colKey => handleBidDetailsResizeStart clientX colKey st
  | MouseMove clientX => handleBidDetailsResizeMove clientX st
  | MouseUp => handleBidDetailsResizeEnd st
  end.

(** Every column is at least 60 wide. *)
Definition widths_at_least_60 (widths : BidDetailsColWidths.t) : Prop :=
  ∀ colKey, (60 <= BidDetailsColWidths.get widths colKey)%Q.


(* ===================================================================== *)
(** * Part II. Properties                                                 *)
(* ===================================================================== *)

Section Aggregation.










(** On the grid of two sections (53361 pairs of vectors, ties and a zero
    total among them) the function on doubles and the function on whole
    numbers give the same number. *)
Lemma calculateOverallScore_whole_agrees :
  forallb (λ p, same_on p.1 p.2) two_section_grid = true.
Proof. vm_compute. reflexivity. Qed.




(** Two sections weighted 20 and 80: a vendor scored 80 and 40 gets 48.0,
    one scored 60 and 90 gets 84.0. *)
Example calculateOverallScore_two_sections :
  calculateOverallScore [80; 40]%float [20; 80]%float = 48%float
  ∧ calculateOverallScore [60; 90]%float [20; 80]%float = 84%float.
Proof. split; vm_compute; reflexivity. Qed.

(** Weights that add up to zero need not do so as the function adds
    them.  The weights [1e16, 1, -1e16, -1] add up to zero, but added from
    left to right in binary64 they give [-1]: the guard does not fire and,
    with every score 1, [calculateOverallScore] returns 1. *)
Lemma calculateOverallScore_cancelled_total :
  let scores := [1; 1; 1; 1]%float in
  let weights := [1e16; 1; -1e16; -1]%float in
  ∃ values_w : list Q,
    mapM Binary64.to_Q weights = Some values_w
    ∧ (sumQ values_w == 0)%Q
    ∧ foldl PrimFloat.add 0%float weights = (-1)%float
    ∧ calculateOverallScore scores weights = 1%float
    ∧ (calculateOverallScore scores weights =? 0)%float = false.
Proof.
  cbv zeta. eexists.
  split; [vm_compute; reflexivity|].
  split; [vm_compute; reflexivity|].
  split; [vm_compute; reflexivity|].
  split; vm_compute; reflexivity.
Qed.

(** C2. When the weights add up to zero as the function adds them (in
    binary64, from left to right, starting from 0), [calculateOverallScore]
    returns [0] whatever the scores are (also when the two vectors differ
    in length, or hold [NaN]): the division is reached only with a total
    that is not zero. *)
Theorem calculateOverallScore_zero_total (scores weights : list float) :
  (foldl PrimFloat.add 0%float weights =? 0)%float = true →
  calculateOverallScore scores weights = 0%float.
Proof.
  intros Hz. unfold calculateOverallScore.
  change (foldl (λ sum w, sum + w)%float 0%float weights)
    with (foldl PrimFloat.add 0%float weights).
  now rewrite Hz.
Qed.

Lemma calculateOverallScore_zero_total_witness :
  calculateOverallScore [80; 60]%float [50; -50]%float = 0%float.
Proof.
  apply (calculateOverallScore_zero_total [80; 60]%float [50; -50]%float).
  vm_compute. reflexivity.
Defined.

End Aggregation.

Section CriteriaTree.

Implicit Types (data : list TableRow.t) (rowId value : string).

Lemma handleWeightChange_app rowId value data1 data2 :
  handleWeightChange rowId value (data1 ++ data2)
  = handleWeightChange rowId value data1
    ++ handleWeightChange rowId value data2.
Proof. unfold handleWeightChange. apply fmap_app. Qed.

Lemma tree_ids_app data1 data2 :
  tree_ids (data1 ++ data2) = tree_ids data1 ++ tree_ids data2.
Proof. unfold tree_ids. apply bind_app. Qed.

Lemma tree_ids_cons row data :
  tree_ids (row :: data)
  = TableRow.id row
      :: (SubCriteria.id <$> default [] (TableRow.sub row)) ++ tree_ids data.
Proof. reflexivity. Qed.

(** Mapping the sub-criteria leaves them as they are when none has the
    id. *)
Lemma sub_map_absent rowId value (subs : list SubCriteria.t) :
  rowId ∉ SubCriteria.id <$> subs →
  (λ subRow,
     if String.eqb (SubCriteria.id subRow) rowId then
       SubCriteria.mk (SubCriteria.id subRow) (SubCriteria.text subRow)
         value (SubCriteria.scores subRow)
     else subRow) <$> subs = subs.
Proof.
  induction subs as [|s subs IH]; intros Hnot; [reflexivity|].
  rewrite fmap_cons, not_elem_of_cons in Hnot. destruct Hnot as [Hne Hnot].
  rewrite fmap_cons, IH by exact Hnot.
  destruct (String.eqb_spec (SubCriteria.id s) rowId); congruence.
Qed.

Lemma handleWeightChange_absent rowId value data :
  rowId ∉ tree_ids data → handleWeightChange rowId value data = data.
Proof.
  induction data as [|row data IH]; intros Hnot; [reflexivity|].
  rewrite tree_ids_cons, not_elem_of_cons, not_elem_of_app in Hnot.
  destruct Hnot as (Hne & Hsub & Hrest).
  change (handleWeightChange rowId value (row :: data))
    with (handleWeightChange rowId value [row]
          ++ handleWeightChange rowId value data).
  rewrite IH by exact Hrest. simpl. f_equal.
  destruct (String.eqb_spec (TableRow.id row) rowId) as [Heq|_];
    [congruence|].
  destruct row as [i t w sc [subs|]]; simpl in *; [|reflexivity].
  now rewrite sub_map_absent.
Qed.

(** C9. A node id that is neither a top-level row's id nor the id of a
    row's direct child leaves the tree as it is, for any value:
    [handleWeightChange] returns a tree equal to the original and raises
    nothing. *)
Theorem handleWeightChange_unknown_id rowId value data :
  Forall (λ row,
            TableRow.id row ≠ rowId
            ∧ Forall (λ subRow, SubCriteria.id subRow ≠ rowId)
                     (default [] (TableRow.sub row))) data →
  handleWeightChange rowId value data = data.
Proof.
  intros Hunknown. apply handleWeightChange_absent.
  unfold tree_ids. rewrite list_elem_of_bind.
  intros (row & Hin & Hrow).
  rewrite Forall_forall in Hunknown.
  destruct (Hunknown row Hrow) as [Hid Hsubs].
  apply elem_of_cons in Hin as [Heq|Hin]; [congruence|].
  apply list_elem_of_fmap in Hin as (subRow & Heq & Hin).
  rewrite Forall_forall in Hsubs.
  exact (Hsubs subRow Hin (eq_sym Heq)).
Qed.

Lemma handleWeightChange_unknown_id_witness :
  handleWeightChange "7.3" "45%" sampleData = sampleData.
Proof.
  apply (handleWeightChange_unknown_id "7.3" "45%" sampleData).
  apply (bool_decide_unpack _). vm_compute. exact I.
Defined.

Lemma insert_middle {A} (l1 l2 : list A) (x y : A) :
  <[length l1 := y]> (l1 ++ x :: l2) = l1 ++ y :: l2.
Proof.
  rewrite insert_app_r_alt by lia. now rewrite Nat.sub_diag.
Qed.

(** With distinct ids among the sub-criteria, the map rewrites the weight
    of the one sub-criterion that has the id and nothing else. *)
Lemma sub_map_unique rowId value (subs : list SubCriteria.t) j subRow :
  NoDup (SubCriteria.id <$> subs) →
  subs !! j = Some subRow →
  SubCriteria.id subRow = rowId →
  (λ subRow,
     if String.eqb (SubCriteria.id subRow) rowId then
       SubCriteria.mk (SubCriteria.id subRow) (SubCriteria.text subRow)
         value (SubCriteria.scores subRow)
     else subRow) <$> subs
  = <[j := SubCriteria.mk (SubCriteria.id subRow) (SubCriteria.text subRow)
            value (SubCriteria.scores subRow)]> subs.
Proof.
  intros Hnd Hj Hid.
  apply list_elem_of_split_length in Hj as (s1 & s2 & -> & ->).
  rewrite fmap_app, fmap_cons in Hnd.
  apply NoDup_app in Hnd as (_ & Hdisj & Hnd).
  apply NoDup_cons in Hnd as (Hs2 & _).
  rewrite Hid in Hs2.
  assert (Hs1 : rowId ∉ SubCriteria.id <$> s1).
  { intros Hin. apply (Hdisj _ Hin). rewrite <- Hid. apply elem_of_cons.
    now left. }
  rewrite insert_middle, fmap_app, fmap_cons.
  rewrite !sub_map_absent by assumption.
  now rewrite <- Hid, String.eqb_refl.
Qed.

(** C10. In a tree whose ids are all distinct, [handleWeightChange] on the
    id of a top-level row replaces that row by the same row with the new
    weight (same id, title, scores and child list) and leaves every other
    row as it is; on the id of a direct child it replaces that child by
    the same child with the new weight (same id, text and scores) and
    leaves every other child and every other row as it is. *)
Theorem handleWeightChange_frame rowId value data :
  NoDup (tree_ids data) →
  (∀ i row,
      data !! i = Some row →
      TableRow.id row = rowId →
      handleWeightChange rowId value data
      = <[i := TableRow.mk (TableRow.id row) (TableRow.title row) value
                 (TableRow.scores row) (TableRow.sub row)]> data)
  ∧ (∀ i row subs j subRow,
        data !! i = Some row →
        TableRow.sub row = Some subs →
        subs !! j = Some subRow →
        SubCriteria.id subRow = rowId →
        handleWeightChange rowId value data
        = <[i := TableRow.mk (TableRow.id row) (TableRow.title row)
                   (TableRow.weight row) (TableRow.scores row)
                   (Some (<[j := SubCriteria.mk (SubCriteria.id subRow)
                                   (SubCriteria.text subRow) value
                                   (SubCriteria.scores subRow)]> subs))]>
            data).
Proof.
  intros Hnd. split.
  - intros i row Hi Hid.
    apply list_elem_of_split_length in Hi as (l1 & l2 & -> & ->).
    rewrite tree_ids_app, tree_ids_cons in Hnd.
    apply NoDup_app in Hnd as (_ & Hdisj & Hnd).
    apply NoDup_cons in Hnd as (Hrest & _).
    rewrite Hid in Hrest. apply not_elem_of_app in Hrest as [_ Hl2].
    assert (Hl1 : rowId ∉ tree_ids l1).
    { intros Hin. apply (Hdisj _ Hin). rewrite <- Hid. apply elem_of_cons.
      now left. }
    rewrite insert_middle, handleWeightChange_app.
    change (row :: l2) with ([row] ++ l2).
    rewrite handleWeightChange_app.
    rewrite (handleWeightChange_absent rowId value l1) by assumption.
    rewrite (handleWeightChange_absent rowId value l2) by assumption.
    simpl. now rewrite <- Hid, String.eqb_refl.
  - intros i row subs j subRow Hi Hsub Hj Hid.
    apply list_elem_of_split_length in Hi as (l1 & l2 & -> & ->).
    rewrite tree_ids_app, tree_ids_cons, Hsub in Hnd. simpl in Hnd.
    assert (Hmem : rowId ∈ SubCriteria.id <$> subs).
    { rewrite <- Hid. apply list_elem_of_fmap. exists subRow. split; [done|].
      eapply list_elem_of_lookup_2; eassumption. }
    apply NoDup_app in Hnd as (_ & Hdisj & Hnd).
    apply NoDup_cons in Hnd as (Hrow & Hnd).
    apply NoDup_app in Hnd as (Hsubs & Hdisj2 & _).
    assert (Hl1 : rowId ∉ tree_ids l1).
    { intros Hin. apply (Hdisj _ Hin). apply elem_of_cons. right.
      apply elem_of_app. now left. }
    assert (Hl2 : rowId ∉ tree_ids l2) by (now apply Hdisj2).
    assert (Hne : TableRow.id row ≠ rowId).
    { intros Heq. apply Hrow. rewrite Heq. apply elem_of_app. now left. }
    rewrite insert_middle, handleWeightChange_app.
    change (row :: l2) with ([row] ++ l2).
    rewrite handleWeightChange_app.
    rewrite (handleWeightChange_absent rowId value l1) by assumption.
    rewrite (handleWeightChange_absent rowId value l2) by assumption.
    simpl. destruct (String.eqb_spec (TableRow.id row) rowId) as [Heq|_];
      [congruence|].
    rewrite Hsub.
    now rewrite (sub_map_unique rowId value subs j subRow).
Qed.

Lemma handleWeightChange_frame_witness :
  NoDup (tree_ids sampleData)
  ∧ handleWeightChange "5.2" "35%" sampleData
    = [section_5_1;
       TableRow.mk "5.2" "Service Approach and Methodology" "35%"
         ["77%"; "65%"; "83%"; "68%"; "94%"] (Some [sub_5_2_1])]
  ∧ handleWeightChange "5.1.2" "35%" sampleData
    = [TableRow.mk "5.1" "Experience and Capabilities" "20%"
         ["80%"; "65%"; "72%"; "91%"; "60%"]
         (Some [sub_5_1_1;
                SubCriteria.mk "5.1.2" (SubCriteria.text sub_5_1_2) "35%"
                  ["80%"; "99%"; "61%"; "75%"; "60%"]]);
       section_5_2].
Proof.
  assert (Hnd : NoDup (tree_ids sampleData)).
  { apply (bool_decide_unpack _). vm_compute. exact I. }
  split; [exact Hnd|]. split.
  - apply (proj1 (handleWeightChange_frame "5.2" "35%" sampleData Hnd)
                 1%nat section_5_2); reflexivity.
  - apply (proj2 (handleWeightChange_frame "5.1.2" "35%" sampleData Hnd)
                 0%nat section_5_1 [sub_5_1_1; sub_5_1_2] 1%nat sub_5_1_2);
      reflexivity.
Defined.

End CriteriaTree.

Section WeightCell.

Implicit Types (data : list TableRow.t) (rowId inputValue : string).

(** [Math.round(num / 5)] is the integer [k] with [5k] nearest to [num];
    an integer is never half-way between two multiples of 5. *)
Lemma Math_round_fifth (num : Z) :
  let k := JS.Math_round (inject_Z num / 5) in
  5 * k - 2 <= num <= 5 * k + 2.
Proof.
  unfold JS.Math_round, Qfloor, Qdiv, Qplus, Qmult, Qinv, inject_Z. simpl.
  Z.div_mod_to_equations. lia.
Qed.

Lemma clamp_round_normalised (num : Z) :
  normalised_percent num
    (JS.Number_toString
       (Z.max 0 (Z.min 100 (JS.Math_round (inject_Z num / 5) * 5))) +:+ "%").
Proof.
  pose proof (Math_round_fifth num) as Hk. simpl in Hk.
  set (k := JS.Math_round (inject_Z num / 5)) in *.
  exists (Z.max 0 (Z.min 100 (k * 5))).
  split; [reflexivity|]. split; [lia|]. split.
  - destruct (Z.max_spec 0 (Z.min 100 (k * 5))) as [[_ ->]|[_ ->]];
      [|reflexivity].
    destruct (Z.min_spec 100 (k * 5)) as [[_ ->]|[_ ->]]; [reflexivity|].
    apply Z.mod_mul. lia.
  - lia.
Qed.

(** The blur handler hands [handleWeightChange] the empty string when the
    text does not parse, and otherwise the parsed integer clamped to
    [[0,100]] and snapped to the nearest multiple of 5, as ["<n>%"]. *)
Lemma handleInputBlur_commits rowId inputValue data :
  ∃ v, (handleInputBlur rowId inputValue data).1
       = handleWeightChange rowId v data
       ∧ match JS.parseInt inputValue with
         | None => v = ""
         | Some num => normalised_percent num v
         end.
Proof.
  unfold handleInputBlur. destruct (JS.parseInt inputValue) as [num|].
  - eexists; split; [reflexivity|]. apply clamp_round_normalised.
  - exists "". split; reflexivity.
Qed.

(** The buttons keep the weight a multiple of 5 in [[0,100]] when the text
    of the input already is one. *)
Lemma buttons_step5 rowId inputValue data (current : Z) :
  JS.parseInt (if String.eqb inputValue "" then "0" else inputValue)
  = Some current →
  0 <= current <= 100 → current mod 5 = 0 →
  (∃ v, (onClickMinus rowId inputValue data).1
        = handleWeightChange rowId v data ∧ percent_step5 v)
  ∧ (∃ v, (onClickPlus rowId inputValue data).1
          = handleWeightChange rowId v data ∧ percent_step5 v).
Proof.
  intros Hparse Hrange Hmod. unfold onClickMinus, onClickPlus.
  rewrite Hparse. simpl.
  split; (eexists; split; [reflexivity|]); eexists;
    (split; [reflexivity|]); (split; [lia|]).
  - destruct (Z.max_spec 0 (current - 5)) as [[_ ->]|[_ ->]];
      [|reflexivity].
    revert Hmod. Z.div_mod_to_equations. lia.
  - destruct (Z.min_spec 100 (current + 5)) as [[_ ->]|[_ ->]];
      [reflexivity|].
    revert Hmod. Z.div_mod_to_equations. lia.
Qed.

Lemma percent_step5_cases (v : string) :
  percent_step5 v →
  v ∈ (λ n, JS.Number_toString n +:+ "%")
        <$> [0; 5; 10; 15; 20; 25; 30; 35; 40; 45; 50; 55; 60; 65; 70; 75;
             80; 85; 90; 95; 100].
Proof.
  intros (n & -> & Hrange & Hmod).
  apply list_elem_of_fmap. exists n. split; [reflexivity|].
  assert (Hn : ∃ m, n = 5 * m ∧ 0 <= m <= 20).
  { exists (n / 5). revert Hmod. Z.div_mod_to_equations. lia. }
  destruct Hn as (m & -> & Hm).
  assert (Hcases : m = 0 ∨ m = 1 ∨ m = 2 ∨ m = 3 ∨ m = 4 ∨ m = 5 ∨ m = 6
                   ∨ m = 7 ∨ m = 8 ∨ m = 9 ∨ m = 10 ∨ m = 11 ∨ m = 12
                   ∨ m = 13 ∨ m = 14 ∨ m = 15 ∨ m = 16 ∨ m = 17 ∨ m = 18
                   ∨ m = 19 ∨ m = 20) by lia.
  repeat (destruct Hcases as [->|Hcases];
          [apply (bool_decide_unpack _); vm_compute; exact I|]).
  subst m. apply (bool_decide_unpack _). vm_compute. exact I.
Qed.

(** C3. The weight committed from the cell is not always a multiple of 5
    in [[0,100]]. With the weight of row 5.1 at ["20%"], typing [22] is
    accepted by [handleInputChange]; the blur commits ["20%"], which
    leaves the tree as it is and the text at [22]. From that text the
    minus button commits ["17%"] and the plus button commits ["27%"]; from
    the text [999] the minus button commits ["994%"]. *)
Theorem weight_buttons_skip_normalisation :
  handleInputChange "22" "20" = "22"
  ∧ handleInputBlur "5.1" "22" sampleData = (sampleData, "22")
  ∧ onClickMinus "5.1" "22" sampleData
    = (handleWeightChange "5.1" "17%" sampleData, "17")
  ∧ onClickPlus "5.1" "22" sampleData
    = (handleWeightChange "5.1" "27%" sampleData, "27")
  ∧ onClickMinus "5.1" "999" sampleData
    = (handleWeightChange "5.1" "994%" sampleData, "994")
  ∧ TableRow.weight <$> (onClickMinus "5.1" "22" sampleData).1 !! 0%nat
    = Some "17%"
  ∧ ¬ percent_step5 "17%" ∧ ¬ percent_step5 "27%" ∧ ¬ percent_step5 "994%".
Proof.
  repeat (split; [vm_compute; reflexivity|]).
  repeat split; intros H%percent_step5_cases;
    revert H; apply (bool_decide_unpack _); vm_compute; exact I.
Qed.

End WeightCell.

Section ColumnOrder.

Context {A : Type}.
Implicit Types (arr l : list A) (x : A).

Lemma splice_delete_one arr (i : Z) :
  0 <= i < Z.of_nat (length arr) →
  JS.splice i 1 [] arr = delete (Z.to_nat i) arr.
Proof.
  intros Hi. unfold JS.splice.
  destruct (Z.ltb_spec i 0) as [?|_]; [lia|].
  rewrite delete_take_drop. simpl. do 2 f_equal; lia.
Qed.

Lemma splice_insert_one arr (j : Z) x :
  0 <= j <= Z.of_nat (length arr) →
  JS.splice j 0 [x] arr = insert_at (Z.to_nat j) x arr.
Proof.
  intros Hj. unfold JS.splice, insert_at.
  destruct (Z.ltb_spec j 0) as [?|_]; [lia|].
  simpl. do 3 f_equal; lia.
Qed.

Lemma length_insert_at (j : nat) x l :
  (j ≤ length l)%nat → length (insert_at j x l) = S (length l).
Proof.
  intros Hj. unfold insert_at.
  rewrite length_app, length_take. simpl. rewrite length_drop. lia.
Qed.

Lemma move_within_same (i : nat) l : move_within i i l = l.
Proof.
  unfold move_within. destruct (l !! i) as [x|] eqn:Hi; [|reflexivity].
  pose proof (lookup_lt_Some _ _ _ Hi) as Hlt.
  unfold insert_at. rewrite delete_take_drop.
  rewrite take_app_length' by (rewrite length_take; lia).
  rewrite drop_app_length' by (rewrite length_take; lia).
  now apply take_drop_middle.
Qed.

Lemma length_move_within (i j : nat) l :
  (i < length l)%nat → (j < length l)%nat →
  length (move_within i j l) = length l.
Proof.
  intros Hi Hj. unfold move_within.
  destruct (lookup_lt_is_Some_2 l i Hi) as [x Hx]. rewrite Hx.
  rewrite length_insert_at; rewrite length_delete by eauto; lia.
Qed.

End ColumnOrder.

Section MoveColumn.

Implicit Types (columnOrder : list (option string)).

Lemma moveColumn_move_within columnOrder (fromIndex toIndex : Z) :
  Z.of_nat (length pinnedColumnIds) <= fromIndex
    < Z.of_nat (length columnOrder) →
  Z.of_nat (length pinnedColumnIds) <= toIndex
    < Z.of_nat (length columnOrder) →
  moveColumn columnOrder fromIndex toIndex
  = take (length pinnedColumnIds) columnOrder
    ++ move_within (Z.to_nat fromIndex - length pinnedColumnIds)
         (Z.to_nat toIndex - length pinnedColumnIds)
         (drop (length pinnedColumnIds) columnOrder).
Proof.
  intros Hfrom Hto. unfold moveColumn. f_equal.
  set (P := length pinnedColumnIds) in *.
  set (vendors := drop P columnOrder).
  assert (Hlen : length vendors = (length columnOrder - P)%nat)
    by apply length_drop.
  replace (Z.to_nat fromIndex - P)%nat with (Z.to_nat (fromIndex - Z.of_nat P))
    by lia.
  replace (Z.to_nat toIndex - P)%nat with (Z.to_nat (toIndex - Z.of_nat P))
    by lia.
  set (i := fromIndex - Z.of_nat P) in *.
  set (j := toIndex - Z.of_nat P) in *.
  assert (Hi : (Z.to_nat i < length vendors)%nat) by lia.
  destruct (lookup_lt_is_Some_2 vendors _ Hi) as [x Hx].
  unfold move_within, JS.index.
  destruct (Z.ltb_spec i 0) as [?|_]; [lia|]. rewrite Hx. simpl.
  rewrite splice_delete_one by lia.
  rewrite splice_insert_one; [reflexivity|].
  rewrite length_delete by eauto. lia.
Qed.

(** C4. For source and destination indices both in the reorderable suffix
    (from the pinned-prefix length up to the length of the order),
    [moveColumn] yields the pinned prefix followed by the suffix with the
    element at the suffix-relative source index removed and inserted at
    the suffix-relative destination index; the pinned prefix and the
    length are unchanged, and equal indices leave the order unchanged. *)
Theorem moveColumn_within_suffix columnOrder (fromIndex toIndex : Z) :
  Z.of_nat (length pinnedColumnIds) <= fromIndex
    < Z.of_nat (length columnOrder) →
  Z.of_nat (length pinnedColumnIds) <= toIndex
    < Z.of_nat (length columnOrder) →
  moveColumn columnOrder fromIndex toIndex
  = take (length pinnedColumnIds) columnOrder
    ++ move_within (Z.to_nat fromIndex - length pinnedColumnIds)
         (Z.to_nat toIndex - length pinnedColumnIds)
         (drop (length pinnedColumnIds) columnOrder)
  ∧ take (length pinnedColumnIds) (moveColumn columnOrder fromIndex toIndex)
    = take (length pinnedColumnIds) columnOrder
  ∧ length (moveColumn columnOrder fromIndex toIndex) = length columnOrder
  ∧ (fromIndex = toIndex →
     moveColumn columnOrder fromIndex toIndex = columnOrder).
Proof.
  intros Hfrom Hto.
  rewrite (moveColumn_move_within columnOrder fromIndex toIndex Hfrom Hto).
  set (P := length pinnedColumnIds) in *.
  split; [reflexivity|]. split; [|split].
  - apply take_app_length'. rewrite length_take. lia.
  - rewrite length_app, length_take, length_move_within;
      rewrite ?length_drop; lia.
  - intros ->. rewrite move_within_same. apply take_drop.
Qed.

Lemma moveColumn_within_suffix_witness :
  moveColumn allColumnIds 4 2
  = take 2 allColumnIds ++ move_within 2 0 (drop 2 allColumnIds)
  ∧ take 2 (moveColumn allColumnIds 4 2) = take 2 allColumnIds
  ∧ length (moveColumn allColumnIds 4 2) = length allColumnIds
  ∧ (4 = 2 → moveColumn allColumnIds 4 2 = allColumnIds).
Proof.
  apply (moveColumn_within_suffix allColumnIds 4 2); cbn; lia.
Defined.

(** [moveColumn] does not check its indices. Dragging the column at
    position 3 onto the pinned position 0 moves it to another place of the
    suffix, and dragging from the pinned position 0 removes a vendor column
    and writes [undefined] into the order. *)
Lemma moveColumn_unguarded :
  0 < Z.of_nat (length pinnedColumnIds)
  ∧ moveColumn allColumnIds 3 0
    = Some <$> ["title"; "weight"; "LangeTech"; "KMNM"; "Best Pacific";
                "Bhilosa"; "Tianhai Lace"]
  ∧ moveColumn allColumnIds 3 0 ≠ allColumnIds
  ∧ moveColumn allColumnIds 0 3
    = [Some "title"; Some "weight"; Some "LangeTech"; None;
       Some "Best Pacific"; Some "KMNM"; Some "Tianhai Lace"]
  ∧ moveColumn allColumnIds 0 3 ≠ allColumnIds.
Proof.
  split; [cbn; lia|].
  repeat split; try reflexivity; vm_compute; discriminate.
Qed.

(** C5, as the code has it. The check is made by the header component, not
    by [moveColumn]: when the pinned columns hold the first positions of
    the order, the header shown at a position of the pinned prefix is not
    draggable, so no drag starts from it, and its hover handler returns
    without calling [moveColumn]: the column order and the dragged item's
    index stay as they were. *)
Theorem hover_pinned_position_rejected columnOrder
    (id : string) (index item_index : Z) :
  take (length pinnedColumnIds) columnOrder = Some <$> pinnedColumnIds →
  JS.index columnOrder index = Some (Some id) →
  index < Z.of_nat (length pinnedColumnIds) →
  isDraggable id = false
  ∧ hover id index item_index columnOrder = (columnOrder, item_index).
Proof.
  intros Hpinned Hid Hindex. unfold JS.index in Hid.
  destruct (Z.ltb_spec index 0) as [?|Hnonneg]; [discriminate Hid|].
  assert (Hlt : (Z.to_nat index < length pinnedColumnIds)%nat) by lia.
  rewrite <- (lookup_take_lt _ _ _ Hlt), Hpinned, list_lookup_fmap in Hid.
  assert (Hnd : isDraggable id = false).
  { simpl in Hlt.
    destruct (Z.to_nat index) as [|[|n]]; simpl in Hid;
      [injection Hid as <-; reflexivity..|lia]. }
  split; [exact Hnd|]. unfold hover. now rewrite Hnd.
Qed.

Lemma hover_pinned_position_rejected_witness :
  isDraggable "weight" = false
  ∧ hover "weight" 1 3 allColumnIds = (allColumnIds, 3).
Proof.
  apply (hover_pinned_position_rejected allColumnIds "weight" 1 3);
    [reflexivity|reflexivity|cbn; lia].
Defined.

End MoveColumn.

Section FilterEngine.

Implicit Types (data : list TableRow.t) (row : TableRow.t).
Implicit Types (filter : FilterModel.t) (s p : string).

Lemma append_cons (c : ascii) p s : String c p +:+ s = String c (p +:+ s).
Proof. reflexivity. Qed.

Lemma prefix_append p s :
  String.prefix p s = true ↔ ∃ post, s = p +:+ post.
Proof.
  revert s; induction p as [|a p IH]; intros s; simpl.
  - destruct s; split; eauto.
  - destruct s as [|b s]; simpl.
    + split; [discriminate|]. intros [post Hpost].
      rewrite append_cons in Hpost. discriminate Hpost.
    + destruct (ascii_dec a b) as [->|Hne].
      * rewrite IH. split; intros [post Hpost]; exists post;
          rewrite append_cons in *; congruence.
      * split; [discriminate|]. intros [post Hpost].
        rewrite append_cons in Hpost. congruence.
Qed.

Lemma includes_spec s p :
  JS.includes s p = true ↔ ∃ pre post, s = pre +:+ p +:+ post.
Proof.
  induction s as [|c s IH].
  - change (JS.includes "" p) with (String.prefix p "" || false).
    rewrite orb_false_r, prefix_append. split.
    + intros [post Hpost]. now exists "", post.
    + intros (pre & post & Heq). destruct pre; [|discriminate Heq].
      now exists post.
  - change (JS.includes (String c s) p)
      with (String.prefix p (String c s) || JS.includes s p).
    rewrite orb_true_iff, prefix_append, IH. split.
    + intros [[post Hpost]|(pre & post & Heq)].
      * now exists "", post.
      * exists (String c pre), post. rewrite append_cons. now rewrite Heq.
    + intros (pre & post & Heq). destruct pre as [|c' pre].
      * left. now exists post.
      * right. exists pre, post. rewrite append_cons in Heq. congruence.
Qed.

Lemma find_head_filter {A} (f : A → bool) (l : list A) :
  find f l = head (List.filter f l).
Proof.
  induction l as [|x l IH]; simpl; [reflexivity|].
  destruct (f x); [reflexivity|exact IH].
Qed.

Lemma matchesFilter_satisfies data row filter :
  matchesFilter data row filter = true ↔ satisfies data row filter.
Proof.
  unfold matchesFilter. rewrite find_head_filter.
  destruct (head _) as [col|] eqn:Hcol.
  - assert (Hacc : accessor_of data (FilterModel.columnId filter)
                   = Some (ColumnConfig.accessor col))
      by (unfold accessor_of; now rewrite Hcol).
    destruct (String.eqb_spec (FilterModel.type filter) "text") as [Ht|Ht].
    + rewrite orb_true_iff, Nat.eqb_eq, existsb_exists. split.
      * intros [Hnil|(v & Hin & Hinc)].
        -- apply satisfies_empty. now apply nil_length_inv.
        -- apply (satisfies_any _ _ _ (ColumnConfig.accessor col) v);
             [assumption..| |].
           ++ now apply list_elem_of_In.
           ++ now apply includes_spec.
      * intros [Hnone|Hnt|Hnil|acc v _ Hacc' Hin Hsub].
        -- congruence.
        -- contradiction.
        -- left. now rewrite Hnil.
        -- right. exists v. split; [now apply list_elem_of_In|].
           apply includes_spec.
           assert (acc = ColumnConfig.accessor col) as -> by congruence.
           exact Hsub.
    + split; [intros _|reflexivity]. now apply satisfies_not_text.
  - split; [intros _|reflexivity]. apply satisfies_no_column.
    unfold accessor_of. now rewrite Hcol.
Qed.

(** C6. A row is in the filtered result exactly when it is a row of the
    table that satisfies every predicate: a text predicate with no value
    holds, and a text predicate with values holds when one of them occurs,
    case ignored, in the string form of the field its column's accessor
    returns for the row. *)
Theorem filteredData_all_predicates (filters : list FilterModel.t) data row :
  row ∈ filteredData filters data
  ↔ row ∈ data ∧ Forall (satisfies data row) filters.
Proof.
  unfold filteredData.
  rewrite !list_elem_of_In, filter_In, forallb_forall, Forall_forall.
  split; intros [Hin Hall]; (split; [exact Hin|]); intros filter Hf.
  - apply matchesFilter_satisfies, Hall. now apply list_elem_of_In.
  - apply matchesFilter_satisfies, Hall. now apply list_elem_of_In.
Qed.

Lemma option_filter_matches data row filter :
  FilterModel.type filter ≠ "text" → matchesFilter data row filter = true.
Proof.
  intros Ht. unfold matchesFilter. destruct (find _ _); [|reflexivity].
  destruct (String.eqb_spec (FilterModel.type filter) "text");
    [contradiction|reflexivity].
Qed.

(** C7. A predicate of type option passes every row, whatever its values
    and the row's field: adding it to a list of predicates, at any place,
    leaves the filtered result as it was. *)
Theorem option_filter_never_excludes data filter :
  FilterModel.type filter = "option" →
  (∀ row, matchesFilter data row filter = true)
  ∧ (∀ filters1 filters2,
        filteredData (filters1 ++ filter :: filters2) data
        = filteredData (filters1 ++ filters2) data).
Proof.
  intros Ht.
  assert (Hall : ∀ row, matchesFilter data row filter = true).
  { intros row. apply option_filter_matches. now rewrite Ht. }
  split; [exact Hall|].
  intros filters1 filters2. unfold filteredData.
  apply List.filter_ext. intros row.
  rewrite !forallb_app. simpl. now rewrite Hall.
Qed.

Lemma option_filter_never_excludes_witness :
  filteredData [FilterModel.mk "LangeTech" "option" ["99%"]] sampleData
  = sampleData.
Proof.
  apply (proj2 (option_filter_never_excludes sampleData
                  (FilterModel.mk "LangeTech" "option" ["99%"]) eq_refl)
               [] []).
Defined.

(** A text predicate on the LangeTech column with the value [lang] keeps
    the rows whose score for that vendor contains [Lang] in any case, and
    drops the others. *)
Example text_filter_on_vendor_column :
  let row1 := TableRow.mk "5.1" "Experience" "20%" ["LANG 80%"] None in
  let row2 := TableRow.mk "5.2" "Service" "20%" ["75%"] None in
  filteredData [FilterModel.mk "LangeTech" "text" ["lang"]] [row1; row2]
  = [row1]
  ∧ filteredData [FilterModel.mk "LangeTech" "text" []] [row1; row2]
    = [row1; row2].
Proof. split; reflexivity. Qed.

Lemma Set_toArray_acc `{EqDecision A} (arr acc : list A) :
  let set :=
    foldl (λ set x, if decide (x ∈ set) then set else set ++ [x]) acc arr in
  (NoDup acc → NoDup set) ∧ (∀ x, x ∈ set ↔ x ∈ acc ∨ x ∈ arr).
Proof.
  revert acc; induction arr as [|y arr IH]; intros acc; simpl.
  - split; [auto|]. intros x. rewrite elem_of_nil. tauto.
  - destruct (IH (if decide (y ∈ acc) then acc else acc ++ [y]))
      as [IHnd IHin].
    split.
    + intros Hnd. apply IHnd. destruct (decide (y ∈ acc)); [exact Hnd|].
      apply NoDup_app. repeat split; [exact Hnd| |apply NoDup_singleton].
      intros x Hx ->%list_elem_of_singleton. contradiction.
    + intros x. rewrite IHin, elem_of_cons.
      destruct (decide (y ∈ acc)) as [Hy|Hy].
      * split; [tauto|]. intros [?|[->|?]]; auto.
      * rewrite elem_of_app, list_elem_of_singleton. tauto.
Qed.

Lemma Set_toArray_NoDup `{EqDecision A} (arr : list A) :
  NoDup (JS.Set_toArray arr).
Proof. apply (Set_toArray_acc arr []). apply NoDup_nil_2. Qed.

Lemma elem_of_Set_toArray `{EqDecision A} (arr : list A) (x : A) :
  x ∈ JS.Set_toArray arr ↔ x ∈ arr.
Proof.
  unfold JS.Set_toArray.
  rewrite (proj2 (Set_toArray_acc arr []) x), elem_of_nil. tauto.
Qed.

Lemma option_values (values : list string) :
  SelectOption.value <$> ((λ v, SelectOption.mk v v) <$> values) = values.
Proof.
  induction values as [|v values IH]; [reflexivity|].
  rewrite !fmap_cons, IH. reflexivity.
Qed.

(** C8, as the code has it. The options of a vendor's column are distinct,
    each has its value as its label, and a value is among them exactly
    when it is the vendor's non-empty score at some top-level row, or the
    vendor's non-empty score at a child of a top-level row that has no
    non-empty score of its own for the vendor. *)
Theorem getVendorOptions_own_score_else_children data (idx : nat) :
  NoDup (SelectOption.value <$> getVendorOptions data idx)
  ∧ Forall (λ o, SelectOption.label o = SelectOption.value o)
           (getVendorOptions data idx)
  ∧ ∀ v, v ∈ SelectOption.value <$> getVendorOptions data idx
         ↔ ∃ row, row ∈ data
             ∧ (JS.truthy (TableRow.scores row !! idx) = Some v
                ∨ (JS.truthy (TableRow.scores row !! idx) = None
                   ∧ ∃ subs subRow,
                       TableRow.sub row = Some subs ∧ subRow ∈ subs
                       ∧ JS.truthy (SubCriteria.scores subRow !! idx)
                         = Some v)).
Proof.
  unfold getVendorOptions. rewrite option_values.
  split; [apply Set_toArray_NoDup|]. split.
  - apply Forall_fmap, Forall_forall. now intros v _.
  - intros v. rewrite elem_of_Set_toArray, list_elem_of_bind.
    split.
    + intros (row & Hv & Hrow). exists row. split; [exact Hrow|].
      destruct (JS.truthy (TableRow.scores row !! idx)) as [score|].
      * left. apply list_elem_of_singleton in Hv. now subst.
      * right. split; [reflexivity|].
        destruct (TableRow.sub row) as [subs|];
          [|now apply not_elem_of_nil in Hv].
        apply list_elem_of_omap in Hv as (subRow & Hin & Heq).
        now exists subs, subRow.
    + intros (row & Hrow & [Hown|(Hnone & subs & subRow & Hs & Hin & Hv)]);
        exists row; (split; [|exact Hrow]).
      * rewrite Hown. now apply list_elem_of_singleton.
      * rewrite Hnone, Hs. apply list_elem_of_omap. now exists subRow.
Qed.

(** The first vendor has the score ["70%"] at sub-criterion 5.1.1, one of
    the scores the specification collects, but it is not among the
    vendor's options: row 5.1 has a score of its own for the vendor, and
    its children are then not read. *)
Lemma getVendorOptions_misses_child_score :
  getVendorOptions sampleData 0
  = [SelectOption.mk "80%" "80%"; SelectOption.mk "77%" "77%"]
  ∧ "70%" ∈ scores_anywhere sampleData 0
  ∧ "70%" ∉ SelectOption.value <$> getVendorOptions sampleData 0.
Proof.
  split; [reflexivity|].
  split; apply (bool_decide_unpack _); vm_compute; exact I.
Qed.

End FilterEngine.

Section WeightEdits.

Implicit Types (data : list TableRow.t) (row : TableRow.t).
Implicit Types (rowId value : string).

Lemma handleWeightChange_updateRow rowId value data :
  handleWeightChange rowId value data = updateRow rowId value <$> data.
Proof. reflexivity. Qed.

Lemma updateRow_id rowId value row :
  TableRow.id (updateRow rowId value row) = TableRow.id row.
Proof.
  unfold updateRow. destruct (String.eqb _ _); [reflexivity|].
  now destruct (TableRow.sub row).
Qed.

Lemma updateRow_twice rowId value1 value2 row :
  updateRow rowId value2 (updateRow rowId value1 row)
  = updateRow rowId value2 row.
Proof.
  unfold updateRow at 2.
  destruct (String.eqb (TableRow.id row) rowId) eqn:Hid.
  - unfold updateRow. simpl. now rewrite Hid.
  - destruct (TableRow.sub row) as [subs|] eqn:Hsub.
    + unfold updateRow. simpl. rewrite Hid, Hsub. do 2 f_equal.
      rewrite <- list_fmap_compose. apply list_fmap_ext. intros _ s _. simpl.
      destruct (String.eqb (SubCriteria.id s) rowId) eqn:Hs; simpl;
        now rewrite Hs.
    + reflexivity.
Qed.

Lemma handleWeightChange_twice rowId value1 value2 data :
  handleWeightChange rowId value2 (handleWeightChange rowId value1 data)
  = handleWeightChange rowId value2 data.
Proof.
  rewrite !handleWeightChange_updateRow, <- list_fmap_compose.
  apply list_fmap_ext. intros _ row _. apply updateRow_twice.
Qed.

(** X1. The last weight written for an id wins: a weight change followed
    by a second one for the same id gives the tree the second one alone
    gives; in particular repeating a change changes nothing more. *)
Theorem handleWeightChange_last_write_wins rowId value1 value2 data :
  handleWeightChange rowId value2 (handleWeightChange rowId value1 data)
  = handleWeightChange rowId value2 data
  ∧ handleWeightChange rowId value1 (handleWeightChange rowId value1 data)
    = handleWeightChange rowId value1 data.
Proof. split; apply handleWeightChange_twice. Qed.

Lemma updateRow_hit rowId value row :
  TableRow.id row = rowId →
  updateRow rowId value row
  = TableRow.mk (TableRow.id row) (TableRow.title row) value
      (TableRow.scores row) (TableRow.sub row).
Proof. intros <-. unfold updateRow. now rewrite String.eqb_refl. Qed.

Lemma updateRow_miss rowId value row :
  TableRow.id row ≠ rowId →
  updateRow rowId value row
  = TableRow.mk (TableRow.id row) (TableRow.title row) (TableRow.weight row)
      (TableRow.scores row)
      ((λ subs : list SubCriteria.t,
          (λ subRow,
             if String.eqb (SubCriteria.id subRow) rowId then
               SubCriteria.mk (SubCriteria.id subRow)
                 (SubCriteria.text subRow) value (SubCriteria.scores subRow)
             else subRow) <$> subs) <$> TableRow.sub row).
Proof.
  intros Hne. unfold updateRow.
  destruct (String.eqb_spec (TableRow.id row) rowId); [contradiction|].
  now destruct row as [? ? ? ? [subs|]].
Qed.

Lemma updateRow_comm rowId1 rowId2 value1 value2 row :
  rowId1 ≠ rowId2 →
  updateRow rowId1 value1 (updateRow rowId2 value2 row)
  = updateRow rowId2 value2 (updateRow rowId1 value1 row).
Proof.
  intros Hne.
  destruct (decide (TableRow.id row = rowId1)) as [H1|H1];
    destruct (decide (TableRow.id row = rowId2)) as [H2|H2];
    [congruence| | |].
  - repeat (first
              [ rewrite updateRow_hit
                  by (rewrite ?updateRow_id; simpl; assumption)
              | rewrite updateRow_miss
                  by (rewrite ?updateRow_id; simpl; assumption) ]).
    reflexivity.
  - repeat (first
              [ rewrite updateRow_hit
                  by (rewrite ?updateRow_id; simpl; assumption)
              | rewrite updateRow_miss
                  by (rewrite ?updateRow_id; simpl; assumption) ]).
    reflexivity.
  - repeat (first
              [ rewrite updateRow_hit
                  by (rewrite ?updateRow_id; simpl; assumption)
              | rewrite updateRow_miss
                  by (rewrite ?updateRow_id; simpl; assumption) ]).
    simpl. f_equal.
    rewrite <- !option_fmap_compose. apply option_fmap_ext. intros subs.
    simpl. rewrite <- !list_fmap_compose.
    apply list_fmap_ext. intros _ s _. simpl.
    repeat (match goal with
            | |- context [String.eqb ?a ?b] => destruct (String.eqb_spec a b)
            end; simpl in *);
      congruence.
Qed.

(** X2. Weight changes for two different ids can be made in either order:
    the resulting tree is the same. *)
Theorem handleWeightChange_comm rowId1 rowId2 value1 value2 data :
  rowId1 ≠ rowId2 →
  handleWeightChange rowId1 value1 (handleWeightChange rowId2 value2 data)
  = handleWeightChange rowId2 value2 (handleWeightChange rowId1 value1 data).
Proof.
  intros Hne. rewrite !handleWeightChange_updateRow, <- !list_fmap_compose.
  apply list_fmap_ext. intros _ row _. now apply updateRow_comm.
Qed.

Lemma handleWeightChange_comm_witness :
  handleWeightChange "5.1" "30%" (handleWeightChange "5.2.1" "10%" sampleData)
  = handleWeightChange "5.2.1" "10%" (handleWeightChange "5.1" "30%" sampleData).
Proof.
  apply (handleWeightChange_comm "5.1" "5.2.1" "30%" "10%" sampleData).
  discriminate.
Defined.

(** X3. A weight change touches weights only: with every weight blanked,
    the tree after the change equals the tree before it (same ids, titles,
    texts, scores, rows and children, in the same order), so the ids of
    the tree are the same. *)
Theorem handleWeightChange_only_weights rowId value data :
  without_weights (handleWeightChange rowId value data) = without_weights data
  ∧ tree_ids (handleWeightChange rowId value data) = tree_ids data.
Proof.
  rewrite handleWeightChange_updateRow. split.
  - unfold without_weights. rewrite <- list_fmap_compose.
    apply list_fmap_ext. intros _ row _. simpl.
    destruct (decide (TableRow.id row = rowId)) as [Hid|Hid];
      [now rewrite updateRow_hit|].
    rewrite updateRow_miss by assumption. simpl. f_equal.
    destruct (TableRow.sub row) as [subs|]; [|reflexivity]. simpl. f_equal.
    rewrite <- list_fmap_compose. apply list_fmap_ext. intros _ s _. simpl.
    now destruct (String.eqb _ _).
  - unfold tree_ids. rewrite list_fmap_bind.
    apply list_bind_ext; [|reflexivity]. intros row. simpl.
    destruct (decide (TableRow.id row = rowId)) as [Hid|Hid];
      [now rewrite updateRow_hit|].
    rewrite updateRow_miss by assumption. simpl. f_equal.
    destruct (TableRow.sub row) as [subs|]; [|reflexivity]. simpl.
    rewrite <- list_fmap_compose. apply list_fmap_ext. intros _ s _. simpl.
    now destruct (String.eqb _ _).
Qed.

(** X4. The footer's lookup reads what was written: after a weight change
    for [rowId], looking [rowId] up gives the row the lookup gave before,
    with the new weight; looking another id up gives a row with the
    weight, title and scores it had before. *)
Theorem findSection_after_handleWeightChange rowId value data :
  findSection (handleWeightChange rowId value data) rowId
  = (λ row, TableRow.mk (TableRow.id row) (TableRow.title row) value
              (TableRow.scores row) (TableRow.sub row))
      <$> findSection data rowId
  ∧ ∀ sectionId,
      sectionId ≠ rowId →
      (λ row, (TableRow.weight row, TableRow.title row, TableRow.scores row))
        <$> findSection (handleWeightChange rowId value data) sectionId
      = (λ row, (TableRow.weight row, TableRow.title row, TableRow.scores row))
          <$> findSection data sectionId.
Proof.
  rewrite handleWeightChange_updateRow. unfold findSection. split.
  - induction data as [|row data IH]; [reflexivity|].
    rewrite fmap_cons. simpl. rewrite updateRow_id.
    destruct (String.eqb (TableRow.id row) rowId) eqn:Hid; [|exact IH].
    unfold updateRow. now rewrite Hid.
  - intros sectionId Hne.
    induction data as [|row data IH]; [reflexivity|].
    rewrite fmap_cons. simpl. rewrite updateRow_id.
    destruct (String.eqb_spec (TableRow.id row) sectionId) as [Hid|Hid];
      [|exact IH].
    simpl. unfold updateRow.
    destruct (String.eqb_spec (TableRow.id row) rowId); [congruence|].
    now destruct (TableRow.sub row).
Qed.

Lemma findSection_after_handleWeightChange_witness :
  TableRow.weight <$> findSection (handleWeightChange "5.2" "35%" sampleData) "5.2"
  = Some "35%"
  ∧ TableRow.weight <$> findSection (handleWeightChange "5.2" "35%" sampleData) "5.1"
    = Some "20%".
Proof.
  destruct (findSection_after_handleWeightChange "5.2" "35%" sampleData)
    as [Hsame Hother].
  split.
  - now rewrite Hsame.
  - pose proof (Hother "5.1" ltac:(discriminate)) as H.
    apply (f_equal (fmap (λ t, t.1.1))) in H.
    rewrite <- !option_fmap_compose in H. exact H.
Defined.

Lemma updateRow_vendor_scores rowId value idx row :
  match JS.truthy (TableRow.scores (updateRow rowId value row) !! idx) with
  | Some score => [score]
  | None =>
      match TableRow.sub (updateRow rowId value row) with
      | Some sub => omap (λ sub, JS.truthy (SubCriteria.scores sub !! idx)) sub
      | None => []
      end
  end
  = match JS.truthy (TableRow.scores row !! idx) with
    | Some score => [score]
    | None =>
        match TableRow.sub row with
        | Some sub =>
            omap (λ sub, JS.truthy (SubCriteria.scores sub !! idx)) sub
        | None => []
        end
    end.
Proof.
  unfold updateRow. destruct (String.eqb _ _); [reflexivity|].
  destruct (TableRow.sub row) as [subs|] eqn:Hsub; simpl;
    [|now rewrite Hsub].
  destruct (JS.truthy _); [reflexivity|].
  induction subs as [|s subs IH] in |- *; [reflexivity|].
  rewrite fmap_cons. csimpl. rewrite IH.
  now destruct (String.eqb (SubCriteria.id s) rowId).
Qed.

(** X5. Weight changes never change the options offered for a vendor's
    column. *)
Theorem getVendorOptions_after_handleWeightChange rowId value data idx :
  getVendorOptions (handleWeightChange rowId value data) idx
  = getVendorOptions data idx.
Proof.
  unfold getVendorOptions. do 2 f_equal.
  rewrite handleWeightChange_updateRow, list_fmap_bind.
  apply list_bind_ext; [|reflexivity].
  intros row. apply updateRow_vendor_scores.
Qed.

End WeightEdits.

Ltac digit_value :=
  match goal with
  | |- context [Z.of_N (N_of_ascii ?c) - 48] =>
      let v := eval vm_compute in (Z.of_N (N_of_ascii c) - 48) in
      change (Z.of_N (N_of_ascii c) - 48) with v
  end.

Section NumberText.

Implicit Types (d : Decimal.uint) (rest : string).

Lemma parseDigits_stop rest (acc : option Z) :
  no_digit_ahead rest → JS.parseDigits 10 rest acc = acc.
Proof. destruct rest as [|c rest]; simpl; [reflexivity|]. now intros ->. Qed.

Lemma parseDigits_digit (c : ascii) (k : Z) (s : string) (acc : option Z) :
  JS.digitValue c = Some k → k < 10 →
  JS.parseDigits 10 (String c s) acc
  = JS.parseDigits 10 s (Some (default 0 acc * 10 + k)).
Proof.
  intros Hc Hk. cbn [JS.parseDigits]. rewrite Hc.
  destruct (Z.ltb_spec k 10); [reflexivity|lia].
Qed.

Lemma parseDigits_uint_acc d (acc : positive) rest :
  no_digit_ahead rest →
  JS.parseDigits 10 (NilEmpty.string_of_uint d +:+ rest) (Some (Z.pos acc))
  = Some (Z.pos (Pos.of_uint_acc d acc)).
Proof.
  intros Hrest. revert acc.
  induction d as [|d IH|d IH|d IH|d IH|d IH|d IH|d IH|d IH|d IH|d IH];
    intros acc;
    [now apply parseDigits_stop|..];
    cbn [NilEmpty.string_of_uint Pos.of_uint_acc]; rewrite append_cons;
    erewrite parseDigits_digit by reflexivity;
    rewrite <- IH; cbn [default]; do 2 f_equal; digit_value; unfold id; lia.
Qed.

Lemma parseDigits_uint d rest :
  no_digit_ahead rest →
  JS.parseDigits 10 (NilEmpty.string_of_uint d +:+ rest) (Some 0)
  = Some (Z.of_N (Pos.of_uint d)).
Proof.
  intros Hrest.
  induction d as [|d IH|d|d|d|d|d|d|d|d|d];
    [now apply parseDigits_stop|..];
    cbn [NilEmpty.string_of_uint Pos.of_uint]; rewrite append_cons;
    erewrite parseDigits_digit by reflexivity;
    cbn [default]; digit_value;
    [exact IH|..];
    cbn [Z.of_N]; rewrite <- (parseDigits_uint_acc d _ rest Hrest);
    reflexivity.
Qed.

Lemma parseInt_digits_ahead d rest :
  d ≠ Decimal.Nil → no_digit_ahead rest →
  JS.parseInt (NilEmpty.string_of_uint d +:+ rest)
  = (m ← JS.parseDigits 10 (NilEmpty.string_of_uint d +:+ rest) None;
     Some (1 * m))
  ∧ JS.parseInt (String "-" (NilEmpty.string_of_uint d +:+ rest))
    = (m ← JS.parseDigits 10 (NilEmpty.string_of_uint d +:+ rest) None;
       Some (-1 * m)).
Proof.
  intros Hd Hrest.
  destruct d as [|d|d|d|d|d|d|d|d|d|d]; [contradiction|..];
    try (split; reflexivity).
  destruct d; try (split; reflexivity).
  destruct rest as [|c rest]; [split; reflexivity|].
  simpl in Hrest.
  destruct c as [[] [] [] [] [] [] [] []];
    try (split; reflexivity); discriminate Hrest.
Qed.

Lemma parseInt_uint d rest :
  d ≠ Decimal.Nil → no_digit_ahead rest →
  JS.parseInt (NilEmpty.string_of_uint d +:+ rest)
  = Some (Z.of_N (Pos.of_uint d))
  ∧ JS.parseInt (String "-" (NilEmpty.string_of_uint d +:+ rest))
    = Some (- Z.of_N (Pos.of_uint d)).
Proof.
  intros Hd Hrest.
  destruct (parseInt_digits_ahead d rest Hd Hrest) as [-> ->].
  assert (Hdigits :
            JS.parseDigits 10 (NilEmpty.string_of_uint d +:+ rest) None
            = Some (Z.of_N (Pos.of_uint d))).
  { rewrite <- (parseDigits_uint d rest Hrest).
    destruct d; [contradiction|reflexivity..]. }
  rewrite Hdigits. simpl. split; f_equal; lia.
Qed.

Lemma parseInt_Number_toString_rest (n : Z) rest :
  no_digit_ahead rest →
  JS.parseInt (JS.Number_toString n +:+ rest) = Some n.
Proof.
  intros Hrest. unfold JS.Number_toString.
  destruct n as [|p|p]; cbn [Z.to_int NilZero.string_of_int].
  - change (NilZero.string_of_uint Decimal.zero)
      with (NilEmpty.string_of_uint (Decimal.D0 Decimal.Nil)).
    assert (Hz : Decimal.D0 Decimal.Nil ≠ Decimal.Nil) by discriminate.
    now rewrite (proj1 (parseInt_uint _ rest Hz Hrest)).
  - pose proof (DecimalPos.Unsigned.to_uint_nonnil p) as Hnil.
    replace (NilZero.string_of_uint (Pos.to_uint p))
      with (NilEmpty.string_of_uint (Pos.to_uint p))
      by (unfold NilZero.string_of_uint; now destruct (Pos.to_uint p)).
    rewrite (proj1 (parseInt_uint _ rest Hnil Hrest)).
    now rewrite DecimalPos.Unsigned.of_to.
  - pose proof (DecimalPos.Unsigned.to_uint_nonnil p) as Hnil.
    replace (NilZero.string_of_uint (Pos.to_uint p))
      with (NilEmpty.string_of_uint (Pos.to_uint p))
      by (unfold NilZero.string_of_uint; now destruct (Pos.to_uint p)).
    rewrite append_cons.
    rewrite (proj2 (parseInt_uint _ rest Hnil Hrest)).
    now rewrite DecimalPos.Unsigned.of_to.
Qed.

Lemma append_empty (s : string) : s +:+ "" = s.
Proof. induction s as [|c s IH]; [reflexivity|]. now rewrite append_cons, IH. Qed.

Lemma Number_toString_nonempty (n : Z) : JS.Number_toString n ≠ "".
Proof.
  intros Hempty.
  pose proof (parseInt_Number_toString_rest n "" I) as H.
  rewrite append_empty, Hempty in H. discriminate H.
Qed.

Lemma syncInputValue_percent (n : Z) :
  syncInputValue (JS.Number_toString n +:+ "%") = JS.Number_toString n.
Proof.
  unfold syncInputValue.
  destruct (String.eqb_spec (JS.Number_toString n +:+ "%") "") as [He|_].
  - destruct (JS.Number_toString n); discriminate He.
  - now rewrite parseInt_Number_toString_rest.
Qed.

Lemma parseInt_Number_toString (n : Z) :
  JS.parseInt (JS.Number_toString n) = Some n.
Proof.
  rewrite <- (append_empty (JS.Number_toString n)).
  now apply parseInt_Number_toString_rest.
Qed.

(** X6. A number printed as a percentage reads back as itself: for every
    whole number [n] that a double holds exactly and prints in full, that
    is with [|n|] at most 2^53 - 1 ([Number.MAX_SAFE_INTEGER]), [parseInt]
    of [String(n) + '%'], and of [String(n)], is [n]; so the text the
    weight cell shows for a stored ["<n>%"] is [String(n)]. *)
Theorem parseInt_of_percent (n : Z) :
  Z.abs n <= 9007199254740991 →
  JS.parseInt (JS.Number_toString n +:+ "%") = Some n
  ∧ JS.parseInt (JS.Number_toString n) = Some n
  ∧ syncInputValue (JS.Number_toString n +:+ "%") = JS.Number_toString n.
Proof.
  intros _.
  split; [now apply parseInt_Number_toString_rest|].
  split; [apply parseInt_Number_toString|apply syncInputValue_percent].
Qed.

Lemma parseInt_of_percent_witness :
  JS.parseInt (JS.Number_toString 20 +:+ "%") = Some 20
  ∧ JS.parseInt (JS.Number_toString 20) = Some 20
  ∧ syncInputValue (JS.Number_toString 20 +:+ "%") = JS.Number_toString 20.
Proof.
  apply (parseInt_of_percent 20). simpl. lia.
Defined.

End NumberText.

Section WeightCellSession.

Implicit Types (data : list TableRow.t) (rowId inputValue : string).

Lemma normalise_fixed (n : Z) :
  0 <= n <= 100 → n mod 5 = 0 →
  Z.max 0 (Z.min 100 (JS.Math_round (inject_Z n / 5) * 5)) = n.
Proof.
  intros Hrange Hmod. pose proof (Math_round_fifth n) as Hk. simpl in Hk.
  revert Hmod. Z.div_mod_to_equations. lia.
Qed.

(** X7. A blur settles the cell: whatever the text, the blur commits a
    weight [v] such that, once the input shows the text of [v], a further
    blur commits [v] again and leaves both the tree and the text as they
    are. *)
Theorem handleInputBlur_settles rowId inputValue data :
  ∃ v, (handleInputBlur rowId inputValue data).1
       = handleWeightChange rowId v data
       ∧ handleInputBlur rowId (syncInputValue v)
           (handleWeightChange rowId v data)
         = (handleWeightChange rowId v data, syncInputValue v).
Proof.
  unfold handleInputBlur at 1.
  destruct (JS.parseInt inputValue) as [num|].
  - destruct (clamp_round_normalised num) as (n & Hv & Hrange & Hmod & _).
    eexists; split; [reflexivity|]. cbn [fst]. rewrite Hv.
    rewrite syncInputValue_percent. unfold handleInputBlur.
    rewrite parseInt_Number_toString, normalise_fixed by assumption.
    now rewrite handleWeightChange_twice.
  - exists "". split; [reflexivity|].
    change (syncInputValue "") with "". unfold handleInputBlur.
    change (JS.parseInt "") with (@None Z).
    now rewrite handleWeightChange_twice.
Qed.

Lemma Number_toString_eqb_empty (n : Z) :
  String.eqb (JS.Number_toString n) "" = false.
Proof. apply String.eqb_neq, Number_toString_nonempty. Qed.

(** X8. Below the cap the minus button undoes the plus button, and above
    the floor the plus button undoes the minus button: from the text of a
    number [n] in [[0,95]], plus then minus commits ["<n>%"] and shows [n]
    again; from [n] in [[5,100]], minus then plus does. *)
Theorem plus_minus_cancel rowId data (n : Z) :
  (0 <= n <= 95 →
   onClickMinus rowId (onClickPlus rowId (JS.Number_toString n) data).2
     (onClickPlus rowId (JS.Number_toString n) data).1
   = (handleWeightChange rowId (JS.Number_toString n +:+ "%") data,
      JS.Number_toString n))
  ∧ (5 <= n <= 100 →
     onClickPlus rowId (onClickMinus rowId (JS.Number_toString n) data).2
       (onClickMinus rowId (JS.Number_toString n) data).1
     = (handleWeightChange rowId (JS.Number_toString n +:+ "%") data,
        JS.Number_toString n)).
Proof.
  split; intros Hn; unfold onClickPlus, onClickMinus; cbn [fst snd];
    rewrite !Number_toString_eqb_empty, !parseInt_Number_toString;
    cbn [default]; unfold id; rewrite handleWeightChange_twice.
  - replace (Z.max 0 (Z.min 100 (n + 5) - 5)) with n by lia. reflexivity.
  - replace (Z.min 100 (Z.max 0 (n - 5) + 5)) with n by lia. reflexivity.
Qed.

Lemma plus_minus_cancel_witness :
  onClickMinus "5.1" (onClickPlus "5.1" "20" sampleData).2
    (onClickPlus "5.1" "20" sampleData).1
  = (handleWeightChange "5.1" "20%" sampleData, "20").
Proof.
  apply (proj1 (plus_minus_cancel "5.1" sampleData 20)). lia.
Defined.

(** X9. With a text that does not parse as a number (the empty text
    included), the minus button commits ["0%"] and the plus button
    ["5%"]: the text counts as 0. *)
Theorem buttons_on_unparsable_text rowId inputValue data :
  JS.parseInt inputValue = None →
  onClickMinus rowId inputValue data
  = (handleWeightChange rowId "0%" data, "0")
  ∧ onClickPlus rowId inputValue data
    = (handleWeightChange rowId "5%" data, "5").
Proof.
  intros Hnan. unfold onClickMinus, onClickPlus.
  destruct (String.eqb inputValue ""); [split; reflexivity|].
  rewrite Hnan. split; reflexivity.
Qed.

Lemma buttons_on_unparsable_text_witness :
  onClickMinus "5.1" "" sampleData
  = (handleWeightChange "5.1" "0%" sampleData, "0")
  ∧ onClickPlus "5.1" "" sampleData
    = (handleWeightChange "5.1" "5%" sampleData, "5").
Proof.
  apply (buttons_on_unparsable_text "5.1" "" sampleData). reflexivity.
Defined.

Lemma isDigit_cases (c : ascii) :
  JS.isDigit c = true →
  c ∈ ["0"; "1"; "2"; "3"; "4"; "5"; "6"; "7"; "8"; "9"]%char.
Proof.
  destruct c as [[] [] [] [] [] [] [] []]; intros H;
    try discriminate H; apply (bool_decide_unpack _); vm_compute; exact I.
Qed.

Ltac digit_cases H :=
  apply isDigit_cases in H;
  repeat (apply elem_of_cons in H as [->|H]);
  [..|now apply not_elem_of_nil in H].

Lemma upto3digits_parse (s : string) :
  JS.test_upto3digits s = true →
  s = "" ∨ ∃ n, JS.parseInt s = Some n ∧ 0 <= n <= 999.
Proof.
  unfold JS.test_upto3digits. intros H.
  apply andb_true_iff in H as [Hdigits Hlen].
  destruct s as [|c1 [|c2 [|c3 [|c4 s]]]]; [now left|right..|discriminate Hlen];
    cbn [list_ascii_of_string forallb] in Hdigits;
    repeat (apply andb_true_iff in Hdigits as [? Hdigits]).
  - digit_cases H; (eexists; split; [vm_compute; reflexivity|lia]).
  - digit_cases H; digit_cases H0;
      (eexists; split; [vm_compute; reflexivity|lia]).
  - digit_cases H; digit_cases H0; digit_cases H1;
      (eexists; split; [vm_compute; reflexivity|lia]).
Qed.

(** X10. The input only ever holds at most three digits: if the text is
    empty or made of at most three digits, it still is after any change
    event, whatever was typed; and such a text is either empty or parses
    to a whole number between 0 and 999. *)
Theorem handleInputChange_keeps_short_numbers (val inputValue : string) :
  JS.test_upto3digits inputValue = true →
  JS.test_upto3digits (handleInputChange val inputValue) = true
  ∧ (handleInputChange val inputValue = ""
     ∨ ∃ n, JS.parseInt (handleInputChange val inputValue) = Some n
            ∧ 0 <= n <= 999).
Proof.
  intros Hinv.
  assert (Hkept : JS.test_upto3digits (handleInputChange val inputValue)
                  = true).
  { unfold handleInputChange.
    destruct (String.eqb_spec val "") as [->|_]; [reflexivity|]. simpl.
    now destruct (JS.test_upto3digits val) eqn:Hval. }
  split; [exact Hkept|]. now apply upto3digits_parse.
Qed.

Lemma handleInputChange_keeps_short_numbers_witness :
  JS.test_upto3digits (handleInputChange "1000" "20") = true
  ∧ (handleInputChange "1000" "20" = ""
     ∨ ∃ n, JS.parseInt (handleInputChange "1000" "20") = Some n
            ∧ 0 <= n <= 999).
Proof.
  apply (handleInputChange_keeps_short_numbers "1000" "20"). reflexivity.
Defined.

End WeightCellSession.

Section Reordering.

Context {A : Type}.
Implicit Types (l : list A) (x : A) (i j : nat).

Lemma insert_at_delete_lookup i j x l :
  l !! i = Some x → (j < length l)%nat →
  insert_at j x (delete i l) !! j = Some x.
Proof.
  intros Hi Hj. unfold insert_at.
  assert (Hlen : length (delete i l) = (length l - 1)%nat)
    by (apply length_delete; eauto).
  apply list_lookup_middle. rewrite length_take. lia.
Qed.

Lemma delete_insert_at j x l :
  (j ≤ length l)%nat → delete j (insert_at j x l) = l.
Proof.
  intros Hj. unfold insert_at.
  rewrite <- (length_take_le l j Hj) at 1.
  rewrite delete_middle. apply take_drop.
Qed.

Lemma insert_at_delete_same i x l :
  l !! i = Some x → insert_at i x (delete i l) = l.
Proof.
  intros Hi. pose proof (move_within_same i l) as H.
  unfold move_within in H. now rewrite Hi in H.
Qed.

Lemma move_within_lookup i j l :
  (i < length l)%nat → (j < length l)%nat →
  move_within i j l !! j = l !! i.
Proof.
  intros Hi Hj. unfold move_within.
  destruct (lookup_lt_is_Some_2 l i Hi) as [x Hx]. rewrite Hx.
  now apply insert_at_delete_lookup.
Qed.

Lemma move_within_Permutation i j l : move_within i j l ≡ₚ l.
Proof.
  unfold move_within. destruct (l !! i) as [x|] eqn:Hx; [|reflexivity].
  unfold insert_at. rewrite <- Permutation_middle, take_drop.
  symmetry. now apply delete_Permutation.
Qed.

Lemma move_within_undo i j l :
  (i < length l)%nat → (j < length l)%nat →
  move_within j i (move_within i j l) = l.
Proof.
  intros Hi Hj.
  pose proof (move_within_lookup i j l Hi Hj) as Hlook.
  destruct (lookup_lt_is_Some_2 l i Hi) as [x Hx]. rewrite Hx in Hlook.
  unfold move_within at 1. rewrite Hlook.
  unfold move_within. rewrite Hx.
  rewrite delete_insert_at
    by (rewrite length_delete by eauto; lia).
  now apply insert_at_delete_same.
Qed.

End Reordering.

Section DragSession.

Implicit Types (columnOrder : list (option string)).

Lemma moveColumn_destination columnOrder (fromIndex toIndex : Z) :
  Z.of_nat (length pinnedColumnIds) <= fromIndex
    < Z.of_nat (length columnOrder) →
  Z.of_nat (length pinnedColumnIds) <= toIndex
    < Z.of_nat (length columnOrder) →
  JS.index (moveColumn columnOrder fromIndex toIndex) toIndex
  = JS.index columnOrder fromIndex.
Proof.
  intros Hfrom Hto.
  rewrite (moveColumn_move_within columnOrder fromIndex toIndex Hfrom Hto).
  set (P := length pinnedColumnIds) in *.
  assert (HlenP : length (take P columnOrder) = P)
    by (rewrite length_take; lia).
  unfold JS.index.
  destruct (Z.ltb_spec toIndex 0); [lia|].
  destruct (Z.ltb_spec fromIndex 0); [lia|].
  rewrite lookup_app_r by lia. rewrite HlenP.
  rewrite move_within_lookup by (rewrite length_drop; lia).
  rewrite lookup_drop. f_equal. lia.
Qed.

Lemma moveColumn_length columnOrder (fromIndex toIndex : Z) :
  Z.of_nat (length pinnedColumnIds) <= fromIndex
    < Z.of_nat (length columnOrder) →
  Z.of_nat (length pinnedColumnIds) <= toIndex
    < Z.of_nat (length columnOrder) →
  length (moveColumn columnOrder fromIndex toIndex) = length columnOrder.
Proof.
  intros Hfrom Hto.
  rewrite (moveColumn_move_within columnOrder fromIndex toIndex Hfrom Hto).
  rewrite length_app, length_take, length_move_within;
    rewrite ?length_drop; lia.
Qed.

(** X11. A move within the reorderable suffix puts the dragged column at
    the destination index and loses or duplicates no column: the new
    order is a rearrangement of the old one. *)
Theorem moveColumn_lands_at_destination columnOrder (fromIndex toIndex : Z) :
  Z.of_nat (length pinnedColumnIds) <= fromIndex
    < Z.of_nat (length columnOrder) →
  Z.of_nat (length pinnedColumnIds) <= toIndex
    < Z.of_nat (length columnOrder) →
  JS.index (moveColumn columnOrder fromIndex toIndex) toIndex
  = JS.index columnOrder fromIndex
  ∧ moveColumn columnOrder fromIndex toIndex ≡ₚ columnOrder.
Proof.
  intros Hfrom Hto. split; [now apply moveColumn_destination|].
  rewrite (moveColumn_move_within columnOrder fromIndex toIndex Hfrom Hto).
  rewrite move_within_Permutation. now rewrite take_drop.
Qed.

Lemma moveColumn_lands_at_destination_witness :
  JS.index (moveColumn allColumnIds 6 2) 2 = JS.index allColumnIds 6
  ∧ moveColumn allColumnIds 6 2 ≡ₚ allColumnIds.
Proof.
  apply (moveColumn_lands_at_destination allColumnIds 6 2); cbn; lia.
Defined.

(** X12. A move within the reorderable suffix is undone by the opposite
    move: dragging a column from one index to another and then back
    restores the column order. *)
Theorem moveColumn_undo columnOrder (fromIndex toIndex : Z) :
  Z.of_nat (length pinnedColumnIds) <= fromIndex
    < Z.of_nat (length columnOrder) →
  Z.of_nat (length pinnedColumnIds) <= toIndex
    < Z.of_nat (length columnOrder) →
  moveColumn (moveColumn columnOrder fromIndex toIndex) toIndex fromIndex
  = columnOrder.
Proof.
  intros Hfrom Hto.
  set (P := length pinnedColumnIds) in *.
  assert (HlenP : length (take P columnOrder) = P)
    by (rewrite length_take; lia).
  assert (Hlen : length (moveColumn columnOrder fromIndex toIndex)
                 = length columnOrder).
  { rewrite (moveColumn_move_within columnOrder fromIndex toIndex Hfrom Hto).
    fold P. rewrite length_app, HlenP, length_move_within;
      rewrite ?length_drop; lia. }
  rewrite (moveColumn_move_within _ toIndex fromIndex) by (rewrite Hlen; lia).
  rewrite (moveColumn_move_within columnOrder fromIndex toIndex Hfrom Hto).
  fold P. rewrite take_app_length', drop_app_length' by (now rewrite HlenP).
  rewrite move_within_undo by (rewrite length_drop; lia).
  apply take_drop.
Qed.

Lemma moveColumn_undo_witness :
  moveColumn (moveColumn allColumnIds 6 2) 2 6 = allColumnIds.
Proof.
  apply (moveColumn_undo allColumnIds 6 2); cbn; lia.
Defined.

(** X13. The hover handler tolerates being called again for the same
    header: a second call with the order and item index the first call
    left changes nothing. *)
Theorem hover_repeated (id : string) (index item_index : Z) columnOrder :
  hover id index (hover id index item_index columnOrder).2
    (hover id index item_index columnOrder).1
  = hover id index item_index columnOrder.
Proof.
  unfold hover.
  destruct (negb (isDraggable id) || (item_index =? index)) eqn:Hskip;
    cbn [fst snd].
  - now rewrite Hskip.
  - now rewrite Z.eqb_refl, orb_true_r.
Qed.

Lemma pinned_header_not_draggable columnOrder (id : string) (index : Z) :
  take (length pinnedColumnIds) columnOrder = Some <$> pinnedColumnIds →
  JS.index columnOrder index = Some (Some id) →
  index < Z.of_nat (length pinnedColumnIds) →
  isDraggable id = false.
Proof.
  intros Hpinned Hid Hindex. unfold JS.index in Hid.
  destruct (Z.ltb_spec index 0) as [?|Hnonneg]; [discriminate Hid|].
  assert (Hlt : (Z.to_nat index < length pinnedColumnIds)%nat) by lia.
  rewrite <- (lookup_take_lt _ _ _ Hlt), Hpinned, list_lookup_fmap in Hid.
  simpl in Hlt.
  destruct (Z.to_nat index) as [|[|n]]; simpl in Hid;
    [injection Hid as <-; reflexivity..|lia].
Qed.

(** X14. Hovering keeps the column order in shape. When the pinned
    columns hold the first positions and the rest is a rearrangement of
    the vendor columns, and the dragged item sits at a vendor position,
    then after the hover handler of any header the pinned columns still
    hold the first positions, the rest is still a rearrangement of the
    vendor columns, and the item's index is a vendor position that holds
    the column that was being dragged. *)
Theorem hover_keeps_shape (id : string) (index item_index : Z) columnOrder :
  order_in_shape columnOrder →
  JS.index columnOrder index = Some (Some id) →
  Z.of_nat (length pinnedColumnIds) <= item_index
    < Z.of_nat (length columnOrder) →
  order_in_shape (hover id index item_index columnOrder).1
  ∧ Z.of_nat (length pinnedColumnIds)
      <= (hover id index item_index columnOrder).2
      < Z.of_nat (length (hover id index item_index columnOrder).1)
  ∧ JS.index (hover id index item_index columnOrder).1
      (hover id index item_index columnOrder).2
    = JS.index columnOrder item_index.
Proof.
  intros [Hpinned Hvendors] Hid Hitem. unfold hover.
  destruct (isDraggable id) eqn:Hdrag; cbn [negb orb];
    [|now repeat split].
  destruct (Z.eqb_spec item_index index) as [->|Hne]; cbn [fst snd];
    [now repeat split|].
  assert (Hindex : Z.of_nat (length pinnedColumnIds) <= index
                   < Z.of_nat (length columnOrder)).
  { split.
    - destruct (Z.lt_ge_cases index (Z.of_nat (length pinnedColumnIds)))
        as [Hlt|Hge]; [|exact Hge].
      rewrite (pinned_header_not_draggable columnOrder id index) in Hdrag
        by assumption.
      discriminate Hdrag.
    - unfold JS.index in Hid. destruct (Z.ltb_spec index 0);
        [discriminate Hid|].
      apply lookup_lt_Some in Hid. lia. }
  split; [|split].
  - rewrite (moveColumn_move_within columnOrder item_index index Hitem Hindex).
    set (P := length pinnedColumnIds) in *.
    assert (HlenP : length (take P columnOrder) = P)
      by (rewrite length_take; lia).
    split.
    + now rewrite take_app_length'.
    + rewrite drop_app_length' by now rewrite HlenP.
      now rewrite move_within_Permutation.
  - rewrite moveColumn_length by assumption. exact Hindex.
  - now apply moveColumn_destination.
Qed.

Lemma hover_keeps_shape_witness :
  order_in_shape (hover "KMNM" 4 2 allColumnIds).1
  ∧ Z.of_nat (length pinnedColumnIds) <= (hover "KMNM" 4 2 allColumnIds).2
      < Z.of_nat (length (hover "KMNM" 4 2 allColumnIds).1)
  ∧ JS.index (hover "KMNM" 4 2 allColumnIds).1 (hover "KMNM" 4 2 allColumnIds).2
    = JS.index allColumnIds 2.
Proof.
  apply (hover_keeps_shape "KMNM" 4 2 allColumnIds).
  - split; reflexivity.
  - reflexivity.
  - cbn; lia.
Defined.

End DragSession.

Section FilterAlgebra.

Implicit Types (data : list TableRow.t) (row : TableRow.t).
Implicit Types (filter : FilterModel.t) (filters : list FilterModel.t).

Lemma List_filter_sublist {A} (f : A → bool) (l : list A) :
  List.filter f l `sublist_of` l.
Proof.
  induction l as [|x l IH]; simpl; [constructor|].
  destruct (f x); now constructor.
Qed.

Lemma List_filter_andb {A} (f g : A → bool) (l : list A) :
  List.filter (λ x, f x && g x) l = List.filter g (List.filter f l).
Proof.
  induction l as [|x l IH]; simpl; [reflexivity|].
  destruct (f x); simpl; [|exact IH]. destruct (g x); now rewrite IH.
Qed.

Lemma forallb_Permutation {A} (f : A → bool) (l1 l2 : list A) :
  l1 ≡ₚ l2 → forallb f l1 = forallb f l2.
Proof.
  induction 1 as [|x l1 l2 _ IH|x y l|l1 l2 l3 _ IH1 _ IH2]; simpl.
  - reflexivity.
  - now rewrite IH.
  - now rewrite !andb_assoc, (andb_comm (f y)).
  - now rewrite IH1.
Qed.

(** X15. Filtering only removes rows: the filtered rows are rows of the
    table in their original order; with no filter every row is kept; and
    adding filters to a list of filters keeps a part of what the list
    kept. *)
Theorem filteredData_only_removes filters data :
  filteredData filters data `sublist_of` data
  ∧ filteredData [] data = data
  ∧ ∀ more, filteredData (filters ++ more) data
            `sublist_of` filteredData filters data.
Proof.
  unfold filteredData. split; [apply List_filter_sublist|]. split.
  - simpl. induction data as [|row data IH]; simpl; [reflexivity|].
    now rewrite IH.
  - intros more.
    rewrite (List.filter_ext _
               (λ row, forallb (matchesFilter data row) filters
                       && forallb (matchesFilter data row) more))
      by (intros row; apply forallb_app).
    rewrite List_filter_andb. apply List_filter_sublist.
Qed.

(** X16. The order in which the filters are listed does not matter: two
    lists holding the same filters give the same filtered rows. *)
Theorem filteredData_filter_order filters1 filters2 data :
  filters1 ≡ₚ filters2 →
  filteredData filters1 data = filteredData filters2 data.
Proof.
  intros Hperm. unfold filteredData. apply List.filter_ext.
  intros row. now apply forallb_Permutation.
Qed.

Lemma filteredData_filter_order_witness :
  filteredData [FilterModel.mk "title" "text" ["service"];
                FilterModel.mk "weight" "text" ["20"]] sampleData
  = filteredData [FilterModel.mk "weight" "text" ["20"];
                  FilterModel.mk "title" "text" ["service"]] sampleData.
Proof.
  apply (filteredData_filter_order
           [FilterModel.mk "title" "text" ["service"];
            FilterModel.mk "weight" "text" ["20"]]
           [FilterModel.mk "weight" "text" ["20"];
            FilterModel.mk "title" "text" ["service"]] sampleData).
  apply Permutation_swap.
Defined.

Lemma includes_empty (s : string) : JS.includes s "" = true.
Proof. now destruct s. Qed.

(** X17. An empty string among the values of a text filter makes the
    filter pass every row. *)
Theorem text_filter_empty_value data row filter :
  FilterModel.type filter = "text" →
  "" ∈ FilterModel.values filter →
  matchesFilter data row filter = true.
Proof.
  intros Ht Hin. unfold matchesFilter. destruct (find _ _); [|reflexivity].
  rewrite Ht. simpl. apply orb_true_iff. right.
  apply existsb_exists. exists "". split; [now apply list_elem_of_In|].
  apply includes_empty.
Qed.

Lemma text_filter_empty_value_witness :
  matchesFilter sampleData section_5_1
    (FilterModel.mk "title" "text" ["zzz"; ""]) = true.
Proof.
  apply (text_filter_empty_value sampleData section_5_1
           (FilterModel.mk "title" "text" ["zzz"; ""])).
  - reflexivity.
  - apply (bool_decide_unpack _). vm_compute. exact I.
Defined.

Lemma existsb_fmap {A B} (g : A → B) (f : B → bool) (l : list A) :
  existsb f (g <$> l) = existsb (λ x, f (g x)) l.
Proof.
  induction l as [|x l IH]; [reflexivity|].
  rewrite fmap_cons. simpl. now rewrite IH.
Qed.

(** X18. Matching ignores the case of the filter's values: two value
    lists that are equal once put in lower case give the same verdict on
    every row. *)
Theorem matchesFilter_value_case data row (columnId type : string)
    (values1 values2 : list string) :
  JS.toLowerCase <$> values1 = JS.toLowerCase <$> values2 →
  matchesFilter data row (FilterModel.mk columnId type values1)
  = matchesFilter data row (FilterModel.mk columnId type values2).
Proof.
  intros Hcase. unfold matchesFilter.
  cbn [FilterModel.columnId FilterModel.type FilterModel.values].
  destruct (find _ _) as [col|]; [|reflexivity].
  destruct (String.eqb type "text"); [|reflexivity].
  f_equal.
  - f_equal. apply (f_equal length) in Hcase.
    now rewrite !length_fmap in Hcase.
  - rewrite <- (existsb_fmap JS.toLowerCase
                  (λ v, JS.includes
                          (JS.toLowerCase
                             (JS.String_ (ColumnConfig.accessor col row))) v)
                  values1).
    rewrite Hcase. apply existsb_fmap.
Qed.

Lemma matchesFilter_value_case_witness :
  matchesFilter sampleData section_5_2
    (FilterModel.mk "title" "text" ["SERVICE"])
  = matchesFilter sampleData section_5_2
      (FilterModel.mk "title" "text" ["service"]).
Proof.
  apply (matchesFilter_value_case sampleData section_5_2 "title" "text"
           ["SERVICE"] ["service"]).
  reflexivity.
Defined.

(** X19. A row that has no score for a vendor is matched as the text
    [undefined]: a text filter on that vendor's column with values passes
    the row exactly when one of the values occurs, case ignored, in
    [undefined]. *)
Theorem text_filter_on_missing_score data row (k : nat) (name : string)
    (values : list string) :
  vendorColumnIds !! k = Some name →
  TableRow.scores row !! k = None →
  values ≠ [] →
  matchesFilter data row (FilterModel.mk name "text" values) = true
  ↔ ∃ v, v ∈ values ∧ ci_substring v "undefined".
Proof.
  intros Hname Hscore Hvalues.
  assert (Hfind :
            ∃ col, find (λ c, String.eqb (ColumnConfig.id c) name)
                        (columnsConfig data) = Some col
                   ∧ ColumnConfig.accessor col row = None).
  { destruct k as [|[|[|[|[|k]]]]]; simpl in Hname;
      [injection Hname as <-; eexists; split; [reflexivity|exact Hscore]..
      |discriminate Hname]. }
  destruct Hfind as (col & Hcol & Hacc).
  unfold matchesFilter. cbn [FilterModel.columnId FilterModel.type
                              FilterModel.values].
  rewrite Hcol, Hacc. cbn [String.eqb Ascii.eqb Bool.eqb JS.String_ default].
  change (("text" =? "text")%string) with true. cbn iota.
  rewrite orb_true_iff, Nat.eqb_eq, existsb_exists. split.
  - intros [Hnil|(v & Hin & Hinc)].
    + now apply nil_length_inv in Hnil.
    + exists v. split; [now apply list_elem_of_In|]. now apply includes_spec.
  - intros (v & Hin & Hsub). right. exists v.
    split; [now apply list_elem_of_In|]. now apply includes_spec.
Qed.

Lemma text_filter_on_missing_score_witness :
  matchesFilter sampleData
    (TableRow.mk "5.7" "No scores yet" "" [] None)
    (FilterModel.mk "KMNM" "text" ["Defin"]) = true.
Proof.
  apply (text_filter_on_missing_score sampleData
           (TableRow.mk "5.7" "No scores yet" "" [] None) 2 "KMNM" ["Defin"]);
    [reflexivity|reflexivity|discriminate|].
  exists "Defin". split.
  - apply (bool_decide_unpack _). vm_compute. exact I.
  - exists "un", "ed". reflexivity.
Defined.

End FilterAlgebra.

Section ExpandedRows.

Implicit Types (id x : string) (prev : list string).

Lemma elem_of_toggleRow id prev x :
  x ∈ toggleRow id prev ↔ (x ≠ id ∧ x ∈ prev) ∨ (x = id ∧ id ∉ prev).
Proof.
  unfold toggleRow. destruct (bool_decide_reflect (id ∈ prev)) as [Hin|Hout].
  - rewrite list_elem_of_In, filter_In, <- list_elem_of_In, negb_true_iff,
      String.eqb_neq. tauto.
  - rewrite elem_of_app, list_elem_of_singleton.
    split; [intros [Hx| ->]; [left; split|right]|]; try tauto.
    intros ->. contradiction.
Qed.

Lemma toggleRow_NoDup id prev : NoDup prev → NoDup (toggleRow id prev).
Proof.
  intros Hnd. unfold toggleRow.
  destruct (bool_decide_reflect (id ∈ prev)) as [Hin|Hout].
  - apply NoDup_ListNoDup, List.NoDup_filter. now apply NoDup_ListNoDup.
  - apply NoDup_app. repeat split; [exact Hnd| |apply NoDup_singleton].
    intros x Hx ->%list_elem_of_singleton. contradiction.
Qed.

(** X20. Toggling a row in the bid-details table flips whether that row
    is expanded and leaves every other row as it was; and a list of
    expanded rows without repetition stays without repetition. *)
Theorem toggleRow_flips id prev :
  (id ∈ toggleRow id prev ↔ id ∉ prev)
  ∧ (∀ x, x ≠ id → (x ∈ toggleRow id prev ↔ x ∈ prev))
  ∧ (NoDup prev → NoDup (toggleRow id prev)).
Proof.
  split; [|split].
  - rewrite elem_of_toggleRow. tauto.
  - intros x Hx. rewrite elem_of_toggleRow. tauto.
  - apply toggleRow_NoDup.
Qed.

Lemma toggleRow_flips_witness :
  ("5.1" ∈ toggleRow "5.1" ["5.1"; "5.3"] ↔ "5.1" ∉ ["5.1"; "5.3"])
  ∧ (∀ x, x ≠ "5.1" →
       (x ∈ toggleRow "5.1" ["5.1"; "5.3"] ↔ x ∈ ["5.1"; "5.3"]))
  ∧ NoDup (toggleRow "5.1" ["5.1"; "5.3"]).
Proof.
  destruct (toggleRow_flips "5.1" ["5.1"; "5.3"]) as (Hid & Hother & Hnd).
  split; [exact Hid|]. split; [exact Hother|].
  apply Hnd. apply (bool_decide_unpack _). vm_compute. exact I.
Defined.

(** X21. Toggling the same row twice gives back the same set of expanded
    rows, and the very same list when the row was collapsed to begin
    with. *)
Theorem toggleRow_twice id prev :
  NoDup prev →
  toggleRow id (toggleRow id prev) ≡ₚ prev
  ∧ (id ∉ prev → toggleRow id (toggleRow id prev) = prev).
Proof.
  intros Hnd. split.
  - apply NoDup_Permutation; [now do 2 apply toggleRow_NoDup|exact Hnd|].
    intros x. rewrite !elem_of_toggleRow.
    destruct (decide (x = id)) as [->|Hx];
      destruct (decide (id ∈ prev)); tauto.
  - intros Hout. unfold toggleRow at 2.
    rewrite bool_decide_eq_false_2 by assumption.
    unfold toggleRow. rewrite bool_decide_eq_true_2
      by (apply elem_of_app; right; now apply list_elem_of_singleton).
    rewrite List.filter_app. simpl. rewrite String.eqb_refl. simpl.
    rewrite app_nil_r. apply forallb_filter_id, forallb_forall.
    intros x Hx%list_elem_of_In. apply negb_true_iff, String.eqb_neq.
    intros ->. contradiction.
Qed.

Lemma toggleRow_twice_witness :
  toggleRow "5.2" (toggleRow "5.2" ["5.1"; "5.3"]) = ["5.1"; "5.3"].
Proof.
  apply (proj2 (toggleRow_twice "5.2" ["5.1"; "5.3"]
                  ltac:(apply (bool_decide_unpack _); vm_compute; exact I))).
  apply (bool_decide_unpack _). vm_compute. exact I.
Defined.

End ExpandedRows.

Section FillScores.

Variable random : nat → Q.
Hypothesis random_range : ∀ i, (0 <= random i)%Q ∧ (random i < 1)%Q.

Implicit Types (scores : list string) (n : nat) (data : list TableRow.t).

Lemma getRandomPercent_drawn (r : Q) :
  (0 <= r)%Q → (r < 1)%Q → drawn_percent (getRandomPercent r).
Proof.
  intros Hlo Hhi. exists (Qfloor (r * 41) + 60). split; [|reflexivity].
  assert (H0 : 0 <= Qfloor (r * 41)).
  { change 0 with (Qfloor 0). apply Qfloor_resp_le. lra. }
  assert (H40 : Qfloor (r * 41) < 41).
  { rewrite Zlt_Qlt. eapply Qle_lt_trans; [apply Qfloor_le|].
    change (inject_Z 41) with 41%Q. lra. }
  lia.
Qed.

Lemma drawn_percent_not_placeholder (v : string) : drawn_percent v → v ≠ "-".
Proof.
  intros (n & _ & ->) H.
  pose proof (Number_toString_nonempty n) as Hne.
  destruct (JS.Number_toString n) as [|c [|c' s]]; [contradiction|..];
    discriminate H.
Qed.

Lemma filled_not_placeholder (old new : string) : filled old new → new ≠ "-".
Proof.
  intros [[_ Hd]|[Hne ->]]; [now apply drawn_percent_not_placeholder|exact Hne].
Qed.

Lemma fillScores_spec scores n :
  Forall2 filled scores (fillScores random n scores).1
  ∧ (fillScores random n scores).2 = (n + placeholders scores)%nat.
Proof.
  revert n; induction scores as [|val rest IH]; intros n.
  - split; [constructor|]. unfold placeholders. simpl. lia.
  - cbn [fillScores]. unfold placeholders. cbn [List.filter].
    destruct (String.eqb_spec val "-") as [->|Hne].
    + destruct (IH (S n)) as [Hrest Hcount].
      destruct (fillScores random (S n) rest) as [rest' n'].
      cbn [fst snd length] in *. split.
      * constructor; [|exact Hrest]. left. split; [reflexivity|].
        apply getRandomPercent_drawn; apply random_range.
      * unfold placeholders in Hcount. lia.
    + destruct (IH n) as [Hrest Hcount].
      destruct (fillScores random n rest) as [rest' n'].
      cbn [fst snd] in *. split.
      * constructor; [|exact Hrest]. now right.
      * exact Hcount.
Qed.

Lemma placeholders_app scores1 scores2 :
  placeholders (scores1 ++ scores2)
  = (placeholders scores1 + placeholders scores2)%nat.
Proof. unfold placeholders. now rewrite List.filter_app, length_app. Qed.

Lemma fillSubScores_spec (sub : list SubCriteria.t) n :
  Forall2 filled (sub ≫= SubCriteria.scores)
    ((fillSubScores random n sub).1 ≫= SubCriteria.scores)
  ∧ SubCriteria.id <$> (fillSubScores random n sub).1 = SubCriteria.id <$> sub
  ∧ (fillSubScores random n sub).2
    = (n + placeholders (sub ≫= SubCriteria.scores))%nat.
Proof.
  revert n; induction sub as [|subRow rest IH]; intros n.
  - repeat split; [constructor|]. unfold placeholders. simpl. lia.
  - cbn [fillSubScores].
    destruct (fillScores_spec (SubCriteria.scores subRow) n) as [Hs Hn1].
    destruct (fillScores random n (SubCriteria.scores subRow))
      as [scores' n1].
    destruct (IH n1) as (Hrest & Hids & Hn2).
    destruct (fillSubScores random n1 rest) as [rest' n2].
    cbn [fst snd] in *. csimpl. split; [|split].
    + now apply Forall2_app.
    + now rewrite Hids.
    + rewrite placeholders_app. lia.
Qed.

Lemma fillVendorScores_spec (row : TableRow.t) n :
  tree_ids [(fillVendorScores random n row).1] = tree_ids [row]
  ∧ Forall2 filled (all_scores [row])
      (all_scores [(fillVendorScores random n row).1])
  ∧ (fillVendorScores random n row).2
    = (n + placeholders (all_scores [row]))%nat.
Proof.
  unfold fillVendorScores, tree_ids, all_scores. csimpl.
  rewrite !app_nil_r.
  destruct (fillScores_spec (TableRow.scores row) n) as [Hs Hn1].
  destruct (fillScores random n (TableRow.scores row)) as [scores' n1].
  cbn [fst snd] in *.
  destruct (TableRow.sub row) as [sub|]; cbn [default].
  - destruct (fillSubScores_spec sub n1) as (Hrest & Hids & Hn2).
    destruct (fillSubScores random n1 sub) as [sub' n2].
    cbn [fst snd TableRow.id TableRow.sub TableRow.scores default] in *.
    unfold id. split; [|split].
    + now rewrite Hids.
    + now apply Forall2_app.
    + rewrite placeholders_app. lia.
  - cbn [fst snd TableRow.id TableRow.sub TableRow.scores default].
    csimpl. rewrite !app_nil_r. split; [reflexivity|]. split; [exact Hs|].
    exact Hn1.
Qed.

Lemma all_scores_cons (row : TableRow.t) data :
  all_scores (row :: data) = all_scores [row] ++ all_scores data.
Proof. unfold all_scores. csimpl. now rewrite app_nil_r. Qed.

Lemma tree_ids_single (row : TableRow.t) data :
  tree_ids (row :: data) = tree_ids [row] ++ tree_ids data.
Proof. unfold tree_ids. csimpl. now rewrite app_nil_r. Qed.

Lemma fillTable_spec data n :
  tree_ids (fillTable random n data).1 = tree_ids data
  ∧ Forall2 filled (all_scores data) (all_scores (fillTable random n data).1)
  ∧ (fillTable random n data).2 = (n + placeholders (all_scores data))%nat.
Proof.
  revert n; induction data as [|row rest IH]; intros n.
  - repeat split; [constructor|]. unfold placeholders. simpl. lia.
  - cbn [fillTable].
    destruct (fillVendorScores_spec row n) as (Hid & Hs & Hn1).
    destruct (fillVendorScores random n row) as [row' n1].
    destruct (IH n1) as (Hids & Hrest & Hn2).
    destruct (fillTable random n1 rest) as [rest' n2].
    cbn [fst snd] in *.
    rewrite (all_scores_cons row), (all_scores_cons row').
    rewrite (tree_ids_single row), (tree_ids_single row').
    split; [|split].
    + now rewrite Hid, Hids.
    + now apply Forall2_app.
    + rewrite placeholders_app. lia.
Qed.

Lemma fillScores_fixed scores n :
  "-" ∉ scores → fillScores random n scores = (scores, n).
Proof.
  revert n; induction scores as [|val rest IH]; intros n Hnot;
    [reflexivity|].
  apply not_elem_of_cons in Hnot as [Hne Hnot]. cbn [fillScores].
  destruct (String.eqb_spec val "-"); [congruence|].
  now rewrite IH.
Qed.

Lemma fillSubScores_fixed (sub : list SubCriteria.t) n :
  "-" ∉ sub ≫= SubCriteria.scores → fillSubScores random n sub = (sub, n).
Proof.
  revert n; induction sub as [|subRow rest IH]; intros n Hnot;
    [reflexivity|].
  csimpl in Hnot. apply not_elem_of_app in Hnot as [Hs Hrest].
  cbn [fillSubScores]. rewrite fillScores_fixed, IH by assumption.
  now destruct subRow.
Qed.

Lemma fillTable_fixed data n :
  "-" ∉ all_scores data → fillTable random n data = (data, n).
Proof.
  revert n; induction data as [|row rest IH]; intros n Hnot;
    [reflexivity|].
  rewrite all_scores_cons in Hnot.
  apply not_elem_of_app in Hnot as [Hrow Hrest].
  unfold all_scores in Hrow. csimpl in Hrow. rewrite app_nil_r in Hrow.
  apply not_elem_of_app in Hrow as [Hs Hsub].
  cbn [fillTable]. unfold fillVendorScores.
  rewrite fillScores_fixed by assumption.
  destruct row as [i t w sc [sub|]]; cbn [TableRow.sub default] in *.
  - rewrite fillSubScores_fixed by assumption. cbn. now rewrite IH.
  - cbn. now rewrite IH.
Qed.

(** X22. Filling the table replaces every placeholder ["-"], and nothing
    else: the ids of the tree are kept; each score that was the
    placeholder becomes ["<n>%"] with [n] between 60 and 100 and each
    other score is kept; no placeholder is left; and one random number is
    used per placeholder. *)
Theorem fillTable_replaces_placeholders data n :
  tree_ids (fillTable random n data).1 = tree_ids data
  ∧ Forall2 filled (all_scores data) (all_scores (fillTable random n data).1)
  ∧ ("-" ∉ all_scores (fillTable random n data).1)
  ∧ (fillTable random n data).2 = (n + placeholders (all_scores data))%nat.
Proof.
  destruct (fillTable_spec data n) as (Hids & Hfilled & Hcount).
  repeat split; try assumption.
  intros Hin. apply list_elem_of_lookup in Hin as [i Hi].
  destruct (Forall2_lookup_r _ _ _ _ _ Hfilled Hi) as (old & _ & Hold).
  now apply filled_not_placeholder in Hold.
Qed.

(** X23. A table without placeholder is left as it is by a fill, which
    then uses no random number; so filling a table a second time changes
    nothing. *)
Theorem fillTable_settled data n :
  ("-" ∉ all_scores data → fillTable random n data = (data, n))
  ∧ ∀ m, fillTable random m (fillTable random n data).1
         = ((fillTable random n data).1, m).
Proof.
  split; [apply fillTable_fixed|].
  intros m. apply fillTable_fixed.
  destruct (fillTable_spec data n) as (_ & Hfilled & _).
  intros Hin. apply list_elem_of_lookup in Hin as [i Hi].
  destruct (Forall2_lookup_r _ _ _ _ _ Hfilled Hi) as (old & _ & Hold).
  now apply filled_not_placeholder in Hold.
Qed.

End FillScores.

Lemma fillTable_replaces_placeholders_witness :
  tree_ids (fillTable (λ _, 1 # 2) 0 unfilledData).1 = tree_ids unfilledData
  ∧ Forall2 filled (all_scores unfilledData)
      (all_scores (fillTable (λ _, 1 # 2) 0 unfilledData).1)
  ∧ ("-" ∉ all_scores (fillTable (λ _, 1 # 2) 0 unfilledData).1)
  ∧ (fillTable (λ _, 1 # 2) 0 unfilledData).2
    = (0 + placeholders (all_scores unfilledData))%nat.
Proof.
  apply (fillTable_replaces_placeholders (λ _, 1 # 2)).
  intros i. split; [unfold Qle; simpl; lia|reflexivity].
Defined.

Lemma fillTable_settled_witness :
  fillTable (λ _, 1 # 2) 15 (fillTable (λ _, 1 # 2) 0 unfilledData).1
  = ((fillTable (λ _, 1 # 2) 0 unfilledData).1, 15%nat).
Proof.
  apply (proj2 (fillTable_settled (λ _, 1 # 2)
                  ltac:(intros i; split; [unfold Qle; simpl; lia|reflexivity])
                  unfilledData 0%nat)).
Defined.

Section SubRows.

(** X24. The children shown for a row follow the weight changes: after a
    change for the row's own id its children are as before, and after a
    change for any other id they are the children as before with that
    same change applied to them. Children never have children of their
    own. *)
Theorem getSubRows_after_weight_change (rowId value : string)
    (row : TableRow.t) :
  getSubRows (updateRow rowId value row)
  = (if String.eqb (TableRow.id row) rowId then getSubRows row
     else handleWeightChange rowId value (getSubRows row))
  ∧ Forall (λ child, TableRow.sub child = None) (getSubRows row).
Proof.
  split.
  - unfold updateRow, getSubRows.
    destruct (String.eqb (TableRow.id row) rowId); [reflexivity|].
    destruct (TableRow.sub row) as [sub|] eqn:Hsub;
      [|now rewrite Hsub].
    cbn [TableRow.sub]. unfold handleWeightChange.
    rewrite <- !list_fmap_compose. apply list_fmap_ext.
    intros _ s _. simpl.
    now destruct (String.eqb (SubCriteria.id s) rowId).
  - unfold getSubRows. destruct (TableRow.sub row) as [sub|]; [|constructor].
    apply Forall_fmap, Forall_forall. now intros s _.
Qed.

End SubRows.

Section ColumnResize.

Implicit Types (st : ResizeState.t) (widths : BidDetailsColWidths.t).
Implicit Types (colKey : BidDetailsColKey.t).

Lemma Math_max_60 (x : Q) : (60 <= Math_max 60 x)%Q.
Proof.
  unfold Math_max. destruct (Qle_bool 60 x) eqn:H.
  - now apply Qle_bool_iff.
  - apply Qle_refl.
Qed.

Lemma get_set_same colKey (width : Q) widths :
  BidDetailsColWidths.get (BidDetailsColWidths.set colKey width widths) colKey
  = width.
Proof. now destruct colKey. Qed.

Lemma get_set_other colKey colKey' (width : Q) widths :
  colKey' ≠ colKey →
  BidDetailsColWidths.get (BidDetailsColWidths.set colKey width widths) colKey'
  = BidDetailsColWidths.get widths colKey'.
Proof. destruct colKey, colKey'; intros H; try reflexivity; congruence. Qed.

Lemma resizeStep_keeps_min st (e : ResizeEvent) :
  widths_at_least_60 (ResizeState.bidDetailsColWidths st) →
  widths_at_least_60 (ResizeState.bidDetailsColWidths (resizeStep st e)).
Proof.
  intros Hmin. destruct e as [clientX colKey|clientX|];
    [exact Hmin| |exact Hmin].
  unfold resizeStep, handleBidDetailsResizeMove.
  destruct (ResizeState.resizingCol st) as [colKey|]; [|exact Hmin].
  cbn [ResizeState.bidDetailsColWidths]. intros colKey'.
  destruct colKey, colKey'; cbn; try apply Math_max_60;
    first [ apply (Hmin BidDetailsColKey.criteria)
          | apply (Hmin BidDetailsColKey.score)
          | apply (Hmin BidDetailsColKey.justification)
          | apply (Hmin BidDetailsColKey.reference) ].
Qed.

(** X25. No column of the bid-details table ever gets narrower than 60:
    if every width is at least 60, it still is after any sequence of
    mouse-down, mouse-move and mouse-up events of the resize handles,
    wherever the pointer goes. *)
Theorem resize_keeps_min_width st (events : list ResizeEvent) :
  widths_at_least_60 (ResizeState.bidDetailsColWidths st) →
  widths_at_least_60
    (ResizeState.bidDetailsColWidths (foldl resizeStep st events)).
Proof.
  revert st; induction events as [|e events IH]; intros st Hmin;
    [exact Hmin|].
  simpl. apply IH. now apply resizeStep_keeps_min.
Qed.

Lemma resize_keeps_min_width_witness :
  widths_at_least_60
    (ResizeState.bidDetailsColWidths
       (foldl resizeStep
          (ResizeState.mk BID_DETAILS_DEFAULT_WIDTHS None 0 0)
          [MouseDown 500 BidDetailsColKey.score; MouseMove 10; MouseUp])).
Proof.
  apply (resize_keeps_min_width
           (ResizeState.mk BID_DETAILS_DEFAULT_WIDTHS None 0 0)).
  intros colKey. destruct colKey; unfold Qle; simpl; lia.
Defined.

End ColumnResize.

Section AggregationBounds.

Implicit Types (scores weights : list Z).








End AggregationBounds.
